(** * Bulk customer validation with a worker pool

    A shallow embedding of the bulk-validate path of the customers service:
    the [POST /customers/bulk-validate] handler resolves the worker count,
    [bulkValidateWithWorkerPool] fans the batch out to worker goroutines over
    two unbuffered channels and reassembles the outcomes by index, and
    [validateCustomer] is the rule chain every worker applies.

    Go strings are byte sequences: [string] (a list of 8-bit [ascii]) is that
    type, and [String.length] is Go's [len].  Go's [int] is modelled by [Z]. *)

From Stdlib Require Import ZArith NArith Ascii String Lia.
From stdpp Require Import base tactics option list list_numbers strings.

Local Open Scope Z_scope.

(** ** Data model *)

Record CustomerPayload := mkCustomerPayload {
  FullName : string;
  Email : string
}.

(** The field [Email] of the Go struct [ValidateResult] is [ResultEmail] here:
    record projections share one name space. *)
Record ValidateResult := mkValidateResult {
  Index : Z;
  ResultEmail : string;
  Valid : bool;
  Message : string
}.

(** The zero value that [make([]ValidateResult, n)] fills its slice with. *)
Definition zeroValidateResult : ValidateResult :=
  {| Index := 0; ResultEmail := ""; Valid := false; Message := "" |}.

(** ** Package [unicode/utf8] and [unicode]: white space *)

Module utf8.

Definition RuneSelf : N := 128.

(** The UTF-8 encoding of a code point of the basic multilingual plane
    (one to three bytes); four bytes beyond it. *)
Definition EncodeRune (r : N) : list N :=
  if (r <? 128)%N then [r]
  else if (r <? 2048)%N then [192 + r / 64; 128 + r mod 64]%N
  else if (r <? 65536)%N then
    [224 + r / 4096; 128 + (r / 64) mod 64; 128 + r mod 64]%N
  else [240 + r / 262144; 128 + (r / 4096) mod 64;
        128 + (r / 64) mod 64; 128 + r mod 64]%N.

Definition bytes (l : list N) : string :=
  string_of_list_ascii (ascii_of_N <$> l).

(** A byte that is not a continuation byte [10xxxxxx] starts a rune. *)
Definition RuneStart (b : ascii) : bool :=
  negb ((128 <=? N_of_ascii b)%N && (N_of_ascii b <? 192)%N).

End utf8.

Module unicode.

(** The code points with the White_Space property, as [unicode.IsSpace]
    has them: U+0009..U+000D, U+0020, U+0085, U+00A0, U+1680,
    U+2000..U+200A, U+2028, U+2029, U+202F, U+205F, U+3000. *)
Definition White_Space : list N :=
  [9; 10; 11; 12; 13; 32; 133; 160; 5760;
   8192; 8193; 8194; 8195; 8196; 8197; 8198; 8199; 8200; 8201; 8202;
   8232; 8233; 8239; 8287; 12288]%N.

Definition IsSpace (r : N) : bool := bool_decide (r ∈ White_Space).

End unicode.

(** ** Package [strings] *)

Module strings.

(** [strip_prefix p s] is the rest of [s] after its prefix [p]. *)
Fixpoint strip_prefix (p s : string) : option string :=
  match p, s with
  | EmptyString, _ => Some s
  | String a p', String b s' =>
      if Ascii.eqb a b then strip_prefix p' s' else None
  | String _ _, EmptyString => None
  end.

Definition strip_any (encs : list string) (s : string) : option string :=
  foldr (λ e r, match strip_prefix e s with Some t => Some t | None => r end)
        None encs.

(** Drops runes of [encs] from the front of [s], at most [n] of them. *)
Fixpoint drop_runes (encs : list string) (n : nat) (s : string) : string :=
  match n with
  | O => s
  | S n' =>
      match strip_any encs s with
      | Some t => drop_runes encs n' t
      | None => s
      end
  end.

(** The byte sequences that decode to a white-space rune.  UTF-8 decoding
    accepts the shortest encoding of a code point only, so the first rune
    of [s] is white space exactly when [s] starts with one of these, and
    its last rune is white space exactly when [s] ends with one. *)
Definition space_encodings : list string :=
  (λ r, utf8.bytes (utf8.EncodeRune r)) <$> unicode.White_Space.

Definition TrimLeftSpace (s : string) : string :=
  drop_runes space_encodings (String.length s) s.

Definition TrimRightSpace (s : string) : string :=
  String.rev (drop_runes (String.rev <$> space_encodings)
                         (String.length s) (String.rev s)).

(** [strings.TrimSpace]: [s] without its leading and trailing white
    space, as defined by Unicode. *)
Definition TrimSpace (s : string) : string :=
  TrimRightSpace (TrimLeftSpace s).

(** [strings.Contains]: [substr] occurs in [s]. *)
Fixpoint Contains (s substr : string) : bool :=
  String.prefix substr s ||
  match s with
  | EmptyString => false
  | String _ s' => Contains s' substr
  end.

(** [strings.HasSuffix]:
    [len(s) >= len(suffix) && s[len(s)-len(suffix):] == suffix]. *)
Definition HasSuffix (s suffix : string) : bool :=
  (String.length suffix <=? String.length s)%nat &&
  String.eqb (String.substring (String.length s - String.length suffix)
                               (String.length suffix) s) suffix.

Definition isASCII (s : string) : bool :=
  forallb (λ c, (N_of_ascii c <? utf8.RuneSelf)%N) (list_ascii_of_string s).

Definition lowerASCII (c : ascii) : ascii :=
  if (65 <=? N_of_ascii c)%N && (N_of_ascii c <=? 90)%N
  then ascii_of_N (N_of_ascii c + 32) else c.

Definition has_leading_space (s : string) : bool :=
  bool_decide (is_Some (strip_any space_encodings s)).

Definition has_trailing_space (s : string) : bool :=
  bool_decide (is_Some (strip_any (String.rev <$> space_encodings)
                                  (String.rev s))).

(** The number of code points of a well-formed UTF-8 string. *)
Definition RuneCount (s : string) : nat :=
  List.length (filter (λ c, Is_true (utf8.RuneStart c))
                      (list_ascii_of_string s)).

Section ToLower.
(** [strings.Map(unicode.ToLower, s)], the path [strings.ToLower] takes
    when [s] holds a byte outside ASCII.  The case tables of package
    [unicode] are not part of this development. *)
Variable MapToLower : string → string.

(** [strings.ToLower]: ASCII-only strings are mapped byte by byte. *)
Definition ToLower (s : string) : string :=
  if isASCII s
  then string_of_list_ascii (lowerASCII <$> list_ascii_of_string s)
  else MapToLower s.
End ToLower.

End strings.

(** ** The validator *)

Section Validator.
Variable MapToLower : string → string.

(** [validateCustomer] returns [(ok, msg)]. *)
Definition validateCustomer (c : CustomerPayload) : bool * string :=
  let name := strings.TrimSpace (FullName c) in
  let email := strings.TrimSpace (Email c) in
  if String.eqb name "" then (false, "full_name is required")
  else if String.eqb email "" then (false, "email is required")
  else if negb (strings.Contains email "@") then
    (false, "email must contain '@'")
  else if (150 <? Z.of_nat (String.length email)) then
    (false, "email too long")
  else if strings.HasSuffix (strings.ToLower MapToLower email) "@example.com"
  then (false, "example.com emails are not allowed")
  else (true, "").
End Validator.

(** ** The handler's worker-count resolution *)

(** [workers := req.Workers; if workers <= 0 { workers = 5 };
     if workers > 20 { workers = 20 }] *)
Definition resolveWorkers (requested : Z) : Z :=
  let workers := requested in
  let workers := if workers <=? 0 then 5 else workers in
  let workers := if 20 <? workers then 20 else workers in
  workers.

(** ** The worker pool *)

(** [type job struct { index int; data CustomerPayload }] *)
Record job := mkJob {
  index : Z;
  data : CustomerPayload
}.

(** A worker goroutine, by the statement it stands at. *)
Inductive worker :=
| WRange                       (* [for j := range jobs]: ready to receive *)
| WSleep (j : job)             (* holds [j]: [time.Sleep], validation ahead *)
| WSend (r : ValidateResult)   (* [resultsCh <- r]: ready to send *)
| WExit.                       (* [jobs] was closed: the loop is over *)

(** The producer goroutine: in iteration [i] of [for i, c := range customers]
    (with [close(jobs)] after the last one), or finished. *)
Inductive producer :=
| PLoop (i : nat)
| PExit.

(** The calling goroutine: at the head of the spawn loop with counter [w], at
    the head of the collect loop with counter [i] and the slice [out], after
    [return out], or stopped by the index-out-of-range panic of
    [out[r.Index] = r]. *)
Inductive caller :=
| MSpawn (w : Z)
| MCollect (i : Z) (out : list ValidateResult)
| MReturn (out : list ValidateResult)
| MPanic.

Record state := mkState {
  st_main : caller;
  st_workers : list worker;          (* the goroutines started so far *)
  st_producer : option producer;     (* [None] until its [go] statement *)
  st_closed : bool                   (* [jobs] is closed *)
}.

(** What one goroutine, or two at a rendezvous on an unbuffered channel,
    does next.  Statements of one goroutine that touch no channel go with
    the channel operation before them: the store [out[r.Index] = r] with the
    receive, [make] with the producer's [go] statement.  [time.Sleep] has no
    effect but delay: it is the one action [Work] with the validation. *)
Inductive action :=
| Main                 (* the caller: a [go] statement, [make], [return] *)
| Job (k : nat)        (* [jobs <- job{i, c}] meets worker [k]'s receive *)
| Close                (* the producer: [close(jobs)] *)
| Work (k : nat)       (* worker [k]: sleep, validate, build the result *)
| Result (k : nat)     (* worker [k]'s send meets [r := <-resultsCh] *)
| Leave (k : nat).     (* worker [k]: the range over the closed channel ends *)

Section Pool.
Variable MapToLower : string → string.
Variable customers : list CustomerPayload.
Variable workers : Z.

(** The body of a worker's loop after the receive. *)
Definition work (j : job) : ValidateResult :=
  let '(ok, msg) := validateCustomer MapToLower (data j) in
  {| Index := index j;
     ResultEmail := strings.TrimSpace (Email (data j));
     Valid := ok;
     Message := msg |}.

(** [out[r.Index] = r], with Go's bounds check. *)
Definition store (out : list ValidateResult) (r : ValidateResult)
  : option (list ValidateResult) :=
  if (0 <=? Index r) && (Index r <? Z.of_nat (length out))
  then Some (<[Z.to_nat (Index r) := r]> out)
  else None.

Definition initial : state :=
  {| st_main := MSpawn 0; st_workers := [];
     st_producer := None; st_closed := false |}.

Definition step_by (a : action) (s : state) : option state :=
  let '(mkState m ws p closed) := s in
  match a with
  | Main =>
      match m with
      | MSpawn w =>
          if w <? workers
          then Some (mkState (MSpawn (w + 1)) (ws ++ [WRange]) p closed)
          else Some (mkState
                       (MCollect 0 (replicate (length customers)
                                              zeroValidateResult))
                       ws (Some (PLoop 0)) closed)
      | MCollect i out =>
          if i <? Z.of_nat (length customers) then None
          else Some (mkState (MReturn out) ws p closed)
      | MReturn _ | MPanic => None
      end
  | Job k =>
      match p, ws !! k with
      | Some (PLoop i), Some WRange =>
          match customers !! i with
          | Some c =>
              Some (mkState m (<[k := WSleep (mkJob (Z.of_nat i) c)]> ws)
                            (Some (PLoop (S i))) closed)
          | None => None
          end
      | _, _ => None
      end
  | Close =>
      match p with
      | Some (PLoop i) =>
          match customers !! i with
          | Some _ => None
          | None => Some (mkState m ws (Some PExit) true)
          end
      | _ => None
      end
  | Work k =>
      match ws !! k with
      | Some (WSleep j) =>
        Some (mkState m (<[k := WSend (work j)]> ws) p closed)
      | _ => None
      end
  | Result k =>
      match m, ws !! k with
      | MCollect i out, Some (WSend r) =>
          if i <? Z.of_nat (length customers) then
            match store out r with
            | Some out' =>
                Some (mkState (MCollect (i + 1) out') (<[k := WRange]> ws)
                              p closed)
            | None => Some (mkState MPanic (<[k := WRange]> ws) p closed)
            end
          else None
      | _, _ => None
      end
  | Leave k =>
      match ws !! k with
      | Some WRange =>
          if closed then Some (mkState m (<[k := WExit]> ws) p closed)
          else None
      | _ => None
      end
  end.

(** An execution under a schedule: the actions taken, in order. *)
Fixpoint run (tr : list action) (s : state) : option state :=
  match tr with
  | [] => Some s
  | a :: tr' =>
      match step_by a s with
      | Some s' => run tr' s'
      | None => None
      end
  end.

(** [bulkValidateWithWorkerPool(customers, workers)]: the state of the call
    after the actions [tr] of its goroutines. *)
Definition bulkValidateWithWorkerPool (tr : list action) : option state :=
  run tr initial.

(** The outcome a [Work] action builds, the outcome a [Result] action
    hands to the collector. *)
Definition builds (a : action) (s : state) : list ValidateResult :=
  match a with
  | Work k =>
      match st_workers s !! k with
      | Some (WSleep j) => [work j]
      | _ => []
      end
  | _ => []
  end.

Definition hands (a : action) (s : state) : list ValidateResult :=
  match a with
  | Result k =>
      match st_main s, st_workers s !! k with
      | MCollect _ _, Some (WSend r) => [r]
      | _, _ => []
      end
  | _ => []
  end.

(** The outcomes produced by the workers along an execution, and the
    outcomes the collector received, both in order of time. *)
Fixpoint log (ev : action → state → list ValidateResult)
         (tr : list action) (s : state) : list ValidateResult :=
  match tr with
  | [] => []
  | a :: tr' =>
      match step_by a s with
      | Some s' => ev a s ++ log ev tr' s'
      | None => []
      end
  end.

Definition produced := log builds.
Definition collected := log hands.

(** The actions a state with [n] workers may take, and the first of them
    that is enabled: a deterministic scheduler. *)
Definition actions (n : nat) : list action :=
  Main :: Close :: (seq 0 n ≫= λ k, [Result k; Work k; Job k; Leave k]).

Definition first_enabled (s : state) : option action :=
  find (λ a, bool_decide (is_Some (step_by a s)))
       (actions (length (st_workers s))).

Fixpoint exec (fuel : nat) (s : state) : state :=
  match fuel with
  | O => s
  | S fuel' =>
      match first_enabled s with
      | Some a => match step_by a s with
                  | Some s' => exec fuel' s'
                  | None => s
                  end
      | None => s
      end
  end.

(** The call has returned [out]. *)
Definition returned (s : state) : option (list ValidateResult) :=
  match st_main s with
  | MReturn out => Some out
  | _ => None
  end.

(** The result in input order: position [i] holds the outcome of record
    [i]. *)
Definition ordered_outcomes : list ValidateResult :=
  imap (λ i c, work (mkJob (Z.of_nat i) c)) customers.

(** An upper bound on the actions left to any execution from a state. *)
Definition worker_cost (w : worker) : nat :=
  match w with
  | WExit => 0
  | WRange | WSend _ => 1
  | WSleep _ => 2
  end.

Definition producer_cost (p : option producer) : nat :=
  match p with
  | None => 0
  | Some (PLoop i) => 2 * (length customers - i) + 1
  | Some PExit => 0
  end.

Definition caller_cost (m : caller) : nat :=
  match m with
  | MSpawn w => 2 * Z.to_nat (workers - w) + 3 * length customers + 3
  | MCollect i _ => Z.to_nat (Z.of_nat (length customers) - i) + 1
  | MReturn _ | MPanic => 0
  end.

Definition cost (s : state) : nat :=
  caller_cost (st_main s) + producer_cost (st_producer s)
  + sum_list_with worker_cost (st_workers s).

End Pool.

(** ** The operation the handler offers

    [results := bulkValidateWithWorkerPool(req.Customers, workers)] with the
    resolved worker count: the state the call is in after the actions [tr]. *)
Definition validateBatch (MapToLower : string → string)
    (customers : list CustomerPayload) (requestedWorkers : Z)
    (tr : list action) : option state :=
  bulkValidateWithWorkerPool MapToLower customers
                             (resolveWorkers requestedWorkers) tr.

(** ** The rule chain as the specification words it

    An ordered list of independent rules, each a predicate on the record and
    a message; the verdict is that of the first rule that fails.  The email
    the rules look at is the trimmed one, as the second rule introduces it. *)
Record rule := mkRule {
  fails : CustomerPayload → bool;
  reason : string
}.

Section Rules.
Variable MapToLower : string → string.

Definition spec_rules : list rule :=
  [ mkRule (λ c, String.eqb (strings.TrimSpace (FullName c)) "")
           "full_name is required";
    mkRule (λ c, String.eqb (strings.TrimSpace (Email c)) "")
           "email is required";
    mkRule (λ c, negb (strings.Contains (strings.TrimSpace (Email c)) "@"))
           "email must contain '@'";
    mkRule (λ c, 150 <? Z.of_nat (String.length
                                    (strings.TrimSpace (Email c))))
           "email too long";
    mkRule (λ c, strings.HasSuffix
                   (strings.ToLower MapToLower (strings.TrimSpace (Email c)))
                   "@example.com")
           "example.com emails are not allowed" ].

Definition first_failing (rules : list rule) (c : CustomerPayload)
  : bool * string :=
  match find (λ r, fails r c) rules with
  | Some r => (false, reason r)
  | None => (true, "")
  end.
End Rules.

(** ** The invariant of the pool *)

Section Invariant.
Variable MapToLower : string → string.
Variable customers : list CustomerPayload.
Variable workers : Z.

(** The job the producer makes of record [i], and its outcome. *)
Definition job_at (i : nat) : option job :=
  mkJob (Z.of_nat i) <$> customers !! i.

Definition outcome_at (i : nat) : option ValidateResult :=
  work MapToLower <$> job_at i.

(** The position of [out] an outcome is written to. *)
Definition slot (r : ValidateResult) : nat := Z.to_nat (Index r).

Definition genuine (r : ValidateResult) : Prop :=
  outcome_at (slot r) = Some r.

(** The jobs the workers hold, by index, and the outcomes they are about
    to send. *)
Definition sleeping (w : worker) : list nat :=
  match w with
  | WSleep j => [Z.to_nat (index j)]
  | _ => []
  end.

Definition sending (w : worker) : list ValidateResult :=
  match w with
  | WSend r => [r]
  | _ => []
  end.

Definition worker_ok (closed : bool) (w : worker) : Prop :=
  match w with
  | WSleep j => job_at (Z.to_nat (index j)) = Some j
  | WExit => closed = true
  | WRange | WSend _ => True
  end.

(** How many jobs the producer has handed over. *)
Definition sent (p : option producer) : nat :=
  match p with
  | None => 0
  | Some (PLoop i) => i
  | Some PExit => length customers
  end.

Definition producer_ok (p : option producer) (closed : bool) : Prop :=
  match p with
  | None => closed = false
  | Some (PLoop i) => (i ≤ length customers)%nat ∧ closed = false
  | Some PExit => closed = true
  end.

(** The slice [out] once the outcomes [got] are written to it. *)
Definition filled (got : list ValidateResult) : list ValidateResult :=
  (λ k, if decide (k ∈ slot <$> got)
        then default zeroValidateResult (outcome_at k)
        else zeroValidateResult) <$> seq 0 (length customers).

Definition caller_ok (got : list ValidateResult) (m : caller)
    (ws : list worker) (p : option producer) : Prop :=
  match m with
  | MSpawn w =>
      p = None ∧ 0 ≤ w ≤ Z.max 0 workers ∧ Z.of_nat (length ws) = w
  | MCollect i out =>
      p ≠ None ∧ Z.of_nat (length ws) = Z.max 0 workers ∧
      i = Z.of_nat (length got) ∧ out = filled got
  | MReturn out =>
      p ≠ None ∧ Z.of_nat (length ws) = Z.max 0 workers ∧
      out = ordered_outcomes MapToLower customers
  | MPanic => False
  end.

(** [made] are the outcomes produced so far and [got] the ones collected
    so far.  Every index below the producer's position is either the slot
    of one produced outcome or held by one sleeping worker, and every
    produced outcome is either collected or about to be sent. *)
Record invariant (made got : list ValidateResult) (s : state) : Prop := {
  inv_producer : producer_ok (st_producer s) (st_closed s);
  inv_workers : Forall (worker_ok (st_closed s)) (st_workers s);
  inv_made : Forall genuine made;
  inv_sent : (slot <$> made) ++ (st_workers s ≫= sleeping)
             ≡ₚ seq 0 (sent (st_producer s));
  inv_got : got ++ (st_workers s ≫= sending) ≡ₚ made;
  inv_caller : caller_ok got (st_main s) (st_workers s) (st_producer s)
}.

End Invariant.

(** ** Outcomes of the call *)

(** The call may return [out]: some schedule leads to [return out]. *)
Definition returns (MapToLower : string → string)
    (customers : list CustomerPayload) (requestedWorkers : Z)
    (out : list ValidateResult) : Prop :=
  ∃ tr s, validateBatch MapToLower customers requestedWorkers tr = Some s
          ∧ returned s = Some out.

(** The call is blocked for ever: it has not returned and no goroutine can
    move. *)
Definition blocked (MapToLower : string → string)
    (customers : list CustomerPayload) (workers : Z) (s : state) : Prop :=
  returned s = None ∧ ∀ a, step_by MapToLower customers workers a s = None.

(** The schedule [exec] follows. *)
Fixpoint exec_trace (MapToLower : string → string)
    (customers : list CustomerPayload) (workers : Z)
    (fuel : nat) (s : state) : list action :=
  match fuel with
  | O => []
  | S fuel' =>
      match first_enabled MapToLower customers workers s with
      | Some a =>
          match step_by MapToLower customers workers a s with
          | Some s' => a :: exec_trace MapToLower customers workers fuel' s'
          | None => []
          end
      | None => []
      end
  end.

(** ** Sample inputs *)

(** The samples are ASCII: the non-ASCII path of [strings.ToLower] is not
    taken on them. *)
Definition sample_MapToLower (s : string) : string := s.

Definition sample_batch : list CustomerPayload :=
  [ {| FullName := ""; Email := "a@b.com" |};
    {| FullName := "A"; Email := " x@Example.com " |};
    {| FullName := " A "; Email := " a@b.com" |} ].

Definition sample_trace (requestedWorkers : Z) : list action :=
  exec_trace sample_MapToLower sample_batch (resolveWorkers requestedWorkers)
             (cost sample_batch (resolveWorkers requestedWorkers) initial)
             initial.

(** Two workers; the outcome of record 1 arrives before that of record 0. *)
Definition sample_interleaving : list action :=
  [Main; Main; Main; Job 0; Job 1; Work 1; Result 1; Work 0; Job 1;
   Result 0; Close; Work 1; Leave 0; Result 1; Main; Leave 1].

Definition long_email : string :=
  String.append "a@" (string_of_list_ascii (replicate 150 "b"%char)).

(** ** States of the pool at rest *)

(** No goroutine can move. *)
Definition quiescent (MapToLower : string → string)
    (customers : list CustomerPayload) (workers : Z) (s : state) : Prop :=
  ∀ a, step_by MapToLower customers workers a s = None.

(** The call has returned the ordered result and nothing of the pool is
    left: every worker has left its loop and the producer has closed
    [jobs] and finished. *)
Definition torn_down (MapToLower : string → string)
    (customers : list CustomerPayload) (s : state) : Prop :=
  returned s = Some (ordered_outcomes MapToLower customers) ∧
  Forall (λ w, w = WExit) (st_workers s) ∧
  st_producer s = Some PExit ∧ st_closed s = true.

(** The jobs handed to workers whose outcomes the collector has not
    received yet. *)
Definition in_flight (s : state) : nat :=
  length (st_workers s ≫= sleeping) + length (st_workers s ≫= sending).

(** ** The rest of the service *)

(** Go's [int] arithmetic on a 64-bit platform: two's complement
    wrap-around. *)
Definition wrap64 (z : Z) : Z := (z + 2 ^ 63) mod 2 ^ 64 - 2 ^ 63.

Module strconv.

(** [strconv.ParseBool]: the value and whether [err != nil].  It accepts
    1, t, T, TRUE, true, True, 0, f, F, FALSE, false, False. *)
Definition ParseBool (s : string) : bool * bool :=
  if bool_decide (s ∈ ["1"; "t"; "T"; "TRUE"; "true"; "True"])
  then (true, false)
  else if bool_decide (s ∈ ["0"; "f"; "F"; "FALSE"; "false"; "False"])
  then (false, false)
  else (false, true).

End strconv.

(** [gin.H{"error": gin.H{"code": code, "message": message}}] *)
Record APIError := mkAPIError {
  Code : string;
  ErrorMessage : string
}.

Definition apiError (code message : string) : APIError :=
  mkAPIError code message.

Section Parse.
(** [strconv.Atoi]: the value and whether [err != nil]. *)
Variable Atoi : string → Z * bool.

Definition parseIntDefault (s : string) (def : Z) : Z :=
  let '(n, err) := Atoi (strings.TrimSpace s) in
  if err || (n <=? 0) then def else n.

End Parse.

Definition parseBoolDefault (s : string) (def : bool) : bool :=
  if String.eqb (strings.TrimSpace s) "" then def
  else
    let '(b, err) := strconv.ParseBool s in
    if err then def else b.

(** [listCustomers] up to its query: the arguments [$1] to [$4] it passes
    to [db.QueryContext]. *)
Definition listCustomers_args (activeOnly : bool) (search : string)
    (page limit : Z) : bool * string * Z * Z :=
  let offset := wrap64 (wrap64 (page - 1) * limit) in
  let searchLike := String.append "%" (String.append search "%") in
  (activeOnly, searchLike, limit, offset).

(** The handler of [GET /customers] up to its call of [listCustomers]; the
    query parameters are [c.Query]'s strings, empty when absent. *)
Definition getCustomers_args (Atoi : string → Z * bool)
    (qpage qlimit qsearch qactive : string) : bool * string * Z * Z :=
  let page := parseIntDefault Atoi qpage 1 in
  let limit := parseIntDefault Atoi qlimit 10 in
  let search := strings.TrimSpace qsearch in
  let activeOnly := parseBoolDefault qactive true in
  listCustomers_args activeOnly search page limit.

(** [apiKeyAuthMiddleware(apiKey)] on a request whose [X-API-Key] header is
    [header] (empty when absent): the response it aborts with, or [None]
    for [c.Next()]. *)
Definition apiKeyAuthMiddleware (apiKey header : string)
  : option (Z * APIError) :=
  let got := strings.TrimSpace header in
  if String.eqb apiKey ""
  then Some (500, apiError "misconfigured" "API_KEY is not set")
  else if String.eqb got "" || negb (String.eqb got apiKey)
  then Some (401, apiError "unauthorized" "invalid or missing X-API-Key")
  else None.

Record CreateCustomerRequest := mkCreateCustomerRequest {
  ReqFullName : string;
  ReqEmail : string;
  ReqPhone : string
}.

(** The handler of [POST /customers] between the binding of the body and
    the call of [createCustomer]: the response it stops with, or the
    normalised request it goes on with. *)
Definition postCustomers_check (MapToLower : string → string)
    (req : CreateCustomerRequest) : (Z * APIError) + CreateCustomerRequest :=
  let req :=
    {| ReqFullName := strings.TrimSpace (ReqFullName req);
       ReqEmail := strings.ToLower MapToLower
                                   (strings.TrimSpace (ReqEmail req));
       ReqPhone := strings.TrimSpace (ReqPhone req) |} in
  if String.eqb (ReqFullName req) ""
  then inl (400, apiError "validation_error" "full_name is required")
  else if String.eqb (ReqEmail req) ""
          || negb (strings.Contains (ReqEmail req) "@")
  then inl (400, apiError "validation_error" "email must be valid")
  else inr req.

(** ** The users service *)

Record User := mkUser {
  ID : Z;
  Name : string
}.

Definition users : list User := [mkUser 1 "Abdi"; mkUser 2 "Budi"].

Inductive reply :=
| ReplyUsers (us : list User)       (* [Encode(users)] *)
| ReplyError (msg : string)         (* [Encode(map{"error": msg})] *)
| ReplyText (s : string).           (* [Encode(s)] *)

(** [usersHandler] on a request with method [method] whose body decodes to
    [decoded] ([None] when [Decode] fails), with the package variable
    [users] threaded through: the status, the body written and the new
    [users].  One call at a time: the handler takes no lock. *)
Definition usersHandler (method : string) (decoded : option User)
    (users : list User) : Z * reply * list User :=
  if String.eqb method "GET" then (200, ReplyUsers users, users)
  else if String.eqb method "POST" then
    match decoded with
    | None => (400, ReplyError "invalid JSON body", users)
    | Some payload =>
        if String.eqb (Name payload) ""
        then (400, ReplyError "name is required", users)
        else
          let newID :=
            match last users with
            | Some u => wrap64 (ID u + 1)
            | None => 1
            end in
          let newUser := {| ID := newID; Name := Name payload |} in
          (201, ReplyText "Berhasil", users ++ [newUser])
    end
  else (405, ReplyError "method not allowed", users).

(** The users after a sequence of requests. *)
Fixpoint serve (reqs : list (string * option User)) (users : list User)
  : list User :=
  match reqs with
  | [] => users
  | (method, decoded) :: reqs' =>
      serve reqs' (usersHandler method decoded users).2
  end.

(** A decimal [Atoi] for the samples: an optional sign, then digits; a
    value outside [int] is an error. *)
Fixpoint decimal (s : string) (acc : Z) : option Z :=
  match s with
  | EmptyString => Some acc
  | String c s' =>
      if (48 <=? N_of_ascii c)%N && (N_of_ascii c <=? 57)%N
      then decimal s' (10 * acc + Z.of_N (N_of_ascii c) - 48)
      else None
  end.

Definition sample_Atoi (s : string) : Z * bool :=
  let '(neg, ds) :=
    match s with
    | String "-" ds => (true, ds)
    | String "+" ds => (false, ds)
    | _ => (false, s)
    end in
  match ds, decimal ds 0 with
  | String _ _, Some n =>
      let n := if neg then - n else n in
      if (n <? - 2 ^ 63) then (- 2 ^ 63, true)
      else if (2 ^ 63 <=? n) then (2 ^ 63 - 1, true)
      else (n, false)
  | _, _ => (0, true)
  end.

(** * Properties *)

(** ** Strings and trimming *)

Lemma length_rev_app (s1 s2 : string) :
  String.length (String.rev_app s1 s2)
  = (String.length s1 + String.length s2)%nat.
Proof.
  revert s2. induction s1 as [|a s1 IH]; intros s2; simpl; [done|].
  rewrite IH. simpl. lia.
Qed.

Lemma length_rev (s : string) : String.length (String.rev s) = String.length s.
Proof. unfold String.rev. rewrite length_rev_app. simpl. lia. Qed.

Lemma strip_prefix_length (p s t : string) :
  strings.strip_prefix p s = Some t →
  String.length s = (String.length p + String.length t)%nat.
Proof.
  revert s. induction p as [|a p IH]; intros [|b s] H; simplify_eq/=; try done.
  destruct (Ascii.eqb a b); [|done]. apply IH in H. lia.
Qed.

Lemma strip_any_length (encs : list string) (s t : string) :
  Forall (λ e, e ≠ "") encs →
  strings.strip_any encs s = Some t →
  (String.length t < String.length s)%nat.
Proof.
  induction 1 as [|e encs He _ IH]; simpl; [done|].
  destruct (strings.strip_prefix e s) as [t'|] eqn:Hp; [|done].
  intros [= ->]. apply strip_prefix_length in Hp.
  destruct e; [done|]. simpl in Hp. lia.
Qed.

Lemma drop_runes_le (encs : list string) (n : nat) (s : string) :
  Forall (λ e, e ≠ "") encs →
  (String.length (strings.drop_runes encs n s) ≤ String.length s)%nat.
Proof.
  intros Hne. revert s. induction n as [|n IH]; intros s; simpl; [done|].
  destruct (strings.strip_any encs s) as [t|] eqn:Ht; [|done].
  apply (strip_any_length _ _ _ Hne) in Ht. specialize (IH t). lia.
Qed.

Lemma drop_runes_lt (encs : list string) (n : nat) (s : string) :
  Forall (λ e, e ≠ "") encs →
  is_Some (strings.strip_any encs s) → (0 < n)%nat →
  (String.length (strings.drop_runes encs n s) < String.length s)%nat.
Proof.
  intros Hne [t Ht] Hn. destruct n as [|n]; [lia|]. simpl. rewrite Ht.
  pose proof (drop_runes_le encs n t Hne).
  apply (strip_any_length _ _ _ Hne) in Ht. lia.
Qed.

Lemma drop_runes_None (encs : list string) (n : nat) (s : string) :
  strings.strip_any encs s = None → strings.drop_runes encs n s = s.
Proof. intros H. destruct n as [|n]; simpl; [done|]. by rewrite H. Qed.

(** The fuel [drop_runes] is given is enough: nothing is left to drop. *)
Lemma drop_runes_done (encs : list string) (n : nat) (s : string) :
  Forall (λ e, e ≠ "") encs →
  (String.length s ≤ n)%nat →
  strings.strip_any encs (strings.drop_runes encs n s) = None.
Proof.
  intros Hne. revert s. induction n as [|n IH]; intros s Hn; simpl.
  - destruct (strings.strip_any encs s) as [t|] eqn:Ht; [|done].
    apply (strip_any_length _ _ _ Hne) in Ht. lia.
  - destruct (strings.strip_any encs s) as [t|] eqn:Ht; [|done].
    apply IH. apply (strip_any_length _ _ _ Hne) in Ht. lia.
Qed.

Lemma space_encodings_nonempty : Forall (λ e, e ≠ "") strings.space_encodings.
Proof. apply (bool_decide_unpack _). by vm_compute. Qed.

Lemma rev_space_encodings_nonempty :
  Forall (λ e, e ≠ "") (String.rev <$> strings.space_encodings).
Proof. apply (bool_decide_unpack _). by vm_compute. Qed.

Lemma TrimLeftSpace_le (s : string) :
  (String.length (strings.TrimLeftSpace s) ≤ String.length s)%nat.
Proof. apply drop_runes_le, space_encodings_nonempty. Qed.

Lemma TrimRightSpace_le (s : string) :
  (String.length (strings.TrimRightSpace s) ≤ String.length s)%nat.
Proof.
  unfold strings.TrimRightSpace. rewrite length_rev.
  etrans; [apply drop_runes_le, rev_space_encodings_nonempty|].
  by rewrite length_rev.
Qed.

Lemma TrimSpace_le (s : string) :
  (String.length (strings.TrimSpace s) ≤ String.length s)%nat.
Proof.
  unfold strings.TrimSpace. etrans; [apply TrimRightSpace_le|].
  apply TrimLeftSpace_le.
Qed.

(** After [TrimLeftSpace] no white space leads, after [TrimRightSpace] none
    trails. *)
Lemma TrimLeftSpace_done (s : string) :
  strings.has_leading_space (strings.TrimLeftSpace s) = false.
Proof.
  unfold strings.has_leading_space, strings.TrimLeftSpace.
  rewrite drop_runes_done; [|apply space_encodings_nonempty|done].
  apply bool_decide_eq_false. by intros [? ?].
Qed.

Lemma rev_app_rev_app (s1 s2 s3 : string) :
  String.rev_app (String.rev_app s1 s2) s3
  = String.rev_app s2 (String.append s1 s3).
Proof.
  revert s2. induction s1 as [|a s1 IH]; intros s2; simpl; [done|].
  by rewrite IH.
Qed.

Lemma append_empty_r (s : string) : String.append s "" = s.
Proof.
  induction s as [|a s IH]; [done|].
  change (String a (String.append s "") = String a s). by rewrite IH.
Qed.

Lemma rev_involutive (s : string) : String.rev (String.rev s) = s.
Proof.
  unfold String.rev. rewrite rev_app_rev_app. simpl. apply append_empty_r.
Qed.

Lemma TrimRightSpace_done (s : string) :
  strings.has_trailing_space (strings.TrimRightSpace s) = false.
Proof.
  unfold strings.has_trailing_space, strings.TrimRightSpace.
  rewrite rev_involutive, drop_runes_done;
    [|apply rev_space_encodings_nonempty|by rewrite length_rev].
  apply bool_decide_eq_false. by intros [? ?].
Qed.

Lemma TrimSpace_no_trailing_space (s : string) :
  strings.has_trailing_space (strings.TrimSpace s) = false.
Proof. apply TrimRightSpace_done. Qed.

(** Trimming a string with white space at either end shortens it. *)
Lemma TrimSpace_shorter (s : string) :
  strings.has_leading_space s || strings.has_trailing_space s = true →
  (String.length (strings.TrimSpace s) < String.length s)%nat.
Proof.
  intros H. unfold strings.TrimSpace.
  destruct (strings.has_leading_space s) eqn:Hl.
  - apply bool_decide_eq_true in Hl.
    pose proof (TrimRightSpace_le (strings.TrimLeftSpace s)).
    assert (String.length (strings.TrimLeftSpace s) < String.length s)%nat;
      [|lia].
    apply drop_runes_lt; [apply space_encodings_nonempty|done|].
    destruct Hl as [t Ht].
    apply strip_any_length in Ht; [lia|apply space_encodings_nonempty].
  - apply bool_decide_eq_false in Hl. simpl in H.
    apply bool_decide_eq_true in H.
    assert (strings.TrimLeftSpace s = s) as ->.
    { apply drop_runes_None. by apply eq_None_not_Some. }
    unfold strings.TrimRightSpace. rewrite length_rev.
    rewrite <-(length_rev s) at 2.
    apply drop_runes_lt; [apply rev_space_encodings_nonempty|done|].
    destruct H as [t Ht].
    apply strip_any_length in Ht; [|apply rev_space_encodings_nonempty].
    rewrite length_rev in Ht. lia.
Qed.

Lemma TrimSpace_changes (s : string) :
  strings.has_leading_space s || strings.has_trailing_space s = true →
  strings.TrimSpace s ≠ s.
Proof.
  intros H%TrimSpace_shorter Heq. rewrite Heq in H. lia.
Qed.

Lemma length_list_ascii_of_string (s : string) :
  length (list_ascii_of_string s) = String.length s.
Proof. induction s as [|a s IH]; simpl; [done|]. by rewrite IH. Qed.

(** A string has no more code points than bytes. *)
Lemma RuneCount_le (s : string) : (strings.RuneCount s ≤ String.length s)%nat.
Proof.
  unfold strings.RuneCount. rewrite <-length_list_ascii_of_string.
  apply length_filter.
Qed.

(** ** The validator *)

Section ValidatorFacts.
Variable MapToLower : string → string.

(** C3: the validator applies its rules in strict precedence order and
    stops at the first that fails: its verdict is that of the first
    failing rule of the chain (1) trimmed full_name empty, (2) trimmed
    email empty, (3) email without '@', (4) email too long, (5) email
    ending, case-insensitively, with "@example.com"; when no rule fails
    the record is valid. *)
Theorem validateCustomer_first_failing (c : CustomerPayload) :
  validateCustomer MapToLower c
  = first_failing (spec_rules MapToLower) c.
Proof.
  unfold validateCustomer, first_failing, spec_rules. simpl.
  repeat match goal with
         | |- context [if ?b then _ else _] => destruct b; simpl; try done
         end.
Qed.

Lemma validateCustomer_message (c : CustomerPayload) :
  snd (validateCustomer MapToLower c) ≠ ""
  ↔ fst (validateCustomer MapToLower c) = false.
Proof.
  unfold validateCustomer.
  repeat match goal with
         | |- context [if ?b then _ else _] => destruct b; simpl; try done
         end.
Qed.

Lemma work_Index (j : job) : Index (work MapToLower j) = index j.
Proof. unfold work. by destruct (validateCustomer _ _). Qed.

Lemma work_ResultEmail (j : job) :
  ResultEmail (work MapToLower j) = strings.TrimSpace (Email (data j)).
Proof. unfold work. by destruct (validateCustomer _ _). Qed.

Lemma work_verdict (j : job) :
  (Valid (work MapToLower j), Message (work MapToLower j))
  = validateCustomer MapToLower (data j).
Proof. unfold work. by destruct (validateCustomer _ _). Qed.

End ValidatorFacts.

(** The rule precedence scenarios. *)
Example scenario_full_name :
  validateCustomer sample_MapToLower {| FullName := ""; Email := "a@b.com" |}
  = (false, "full_name is required").
Proof. reflexivity. Qed.

Example scenario_email_required :
  validateCustomer sample_MapToLower {| FullName := "A"; Email := "" |}
  = (false, "email is required").
Proof. reflexivity. Qed.

Example scenario_no_at_sign :
  validateCustomer sample_MapToLower {| FullName := "A"; Email := "no-at-sign" |}
  = (false, "email must contain '@'").
Proof. reflexivity. Qed.

Example scenario_example_com :
  validateCustomer sample_MapToLower
                   {| FullName := "A"; Email := "x@example.com" |}
  = (false, "example.com emails are not allowed").
Proof. reflexivity. Qed.

Example scenario_valid :
  validateCustomer sample_MapToLower {| FullName := "A"; Email := "a@b.com" |}
  = (true, "").
Proof. reflexivity. Qed.

(** The rules see the trimmed email: white space around it neither counts
    towards its length nor hides its suffix. *)
Example padded_email_valid :
  validateCustomer sample_MapToLower
    {| FullName := "A";
       Email := String.append "a@b.com"
                  (string_of_list_ascii (replicate 150 " "%char)) |}
  = (true, "").
Proof. vm_compute. reflexivity. Qed.

Example padded_example_com :
  validateCustomer sample_MapToLower
                   {| FullName := "A"; Email := "x@EXAMPLE.com  " |}
  = (false, "example.com emails are not allowed").
Proof. reflexivity. Qed.

(** ** The worker pool *)

Lemma worker_at {A} (ws : list A) (k : nat) (w : A) :
  ws !! k = Some w →
  ∃ ws1 ws2, ws = ws1 ++ w :: ws2 ∧ ∀ w', <[k := w']> ws = ws1 ++ w' :: ws2.
Proof.
  intros (ws1 & ws2 & -> & ->)%list_elem_of_split_length.
  exists ws1, ws2. split; [done|]. intros w'.
  replace (length ws1) with (length ws1 + 0)%nat by lia.
  by rewrite insert_app_r.
Qed.

Ltac step_cases H :=
  unfold step_by in H;
  repeat match type of H with
         | context [match ?x with _ => _ end] =>
             let E := fresh "E" in destruct x eqn:E; try discriminate H
         end;
  try discriminate H;
  injection H as <-; subst;
  repeat match goal with
         | E : (_ <? _) = true |- _ => apply Z.ltb_lt in E
         | E : (_ <? _) = false |- _ => apply Z.ltb_ge in E
         end.

Ltac split_workers :=
  repeat match goal with
         | H : ?ws !! ?k = Some ?w |- _ =>
             lazymatch type of w with worker => idtac end;
             let ws1 := fresh "ws1" in
             let ws2 := fresh "ws2" in
             let Hins := fresh "Hins" in
             apply worker_at in H as (ws1 & ws2 & -> & Hins);
             try rewrite !Hins in *; clear Hins
         end.

Section PoolFacts.
Variable MapToLower : string → string.
Variable customers : list CustomerPayload.
Variable workers : Z.


(** Every action lowers the cost: executions are finite. *)
Lemma step_cost (a : action) (s s' : state) :
  step_by MapToLower customers workers a s = Some s' →
  (cost customers workers s' < cost customers workers s)%nat.
Proof.
  intros H. destruct s as [m ws p closed], a; step_cases H;
    split_workers; unfold cost; simpl;
    rewrite ?sum_list_with_app; simpl;
    repeat match goal with
           | E : _ !! _ = Some _ |- _ => apply lookup_lt_Some in E
           | E : _ !! _ = None |- _ => apply lookup_ge_None in E
           end; lia.
Qed.


Lemma ordered_outcomes_lookup (i : nat) :
  ordered_outcomes MapToLower customers !! i
  = outcome_at MapToLower customers i.
Proof.
  unfold ordered_outcomes, outcome_at, job_at.
  rewrite list_lookup_imap. by destruct (customers !! i).
Qed.

Lemma genuine_Index (r : ValidateResult) :
  genuine MapToLower customers r →
  Index r = Z.of_nat (slot r) ∧ (slot r < length customers)%nat.
Proof.
  unfold genuine, outcome_at, job_at. intros H.
  destruct (customers !! slot r) as [c|] eqn:E; simplify_eq/=.
  split; [|by eapply lookup_lt_Some].
  apply (f_equal Index) in H. by rewrite work_Index in H.
Qed.

Lemma length_filled (got : list ValidateResult) :
  length (filled MapToLower customers got) = length customers.
Proof. unfold filled. by rewrite length_fmap, length_seq. Qed.

Lemma filled_lookup (got : list ValidateResult) (k : nat) :
  (k < length customers)%nat →
  filled MapToLower customers got !! k
  = Some (if decide (k ∈ slot <$> got)
          then default zeroValidateResult (outcome_at MapToLower customers k)
          else zeroValidateResult).
Proof.
  intros Hk. unfold filled.
  by rewrite list_lookup_fmap, lookup_seq_lt.
Qed.

Lemma filled_nil :
  filled MapToLower customers []
  = replicate (length customers) zeroValidateResult.
Proof.
  apply list_eq_same_length with (length customers);
    [apply length_replicate|apply length_filled|].
  intros k x y Hk. rewrite filled_lookup by done.
  rewrite lookup_replicate_2 by done. simpl. congruence.
Qed.

Lemma filled_snoc (got : list ValidateResult) (r : ValidateResult) :
  genuine MapToLower customers r →
  <[slot r := r]> (filled MapToLower customers got)
  = filled MapToLower customers (got ++ [r]).
Proof.
  intros Hr. destruct (genuine_Index r Hr) as [_ Hlt].
  apply list_eq_same_length with (length customers);
    [apply length_filled|by rewrite length_insert, length_filled|].
  intros k x y Hk. rewrite filled_lookup by done.
  destruct (decide (k = slot r)) as [->|Hne].
  - rewrite list_lookup_insert_eq by (by rewrite length_filled).
    rewrite decide_True
      by (apply list_elem_of_fmap_2, elem_of_app; right;
          by apply list_elem_of_singleton).
    unfold genuine in Hr. rewrite Hr. simpl. congruence.
  - rewrite list_lookup_insert_ne by done.
    rewrite filled_lookup by done.
    assert (k ∈ slot <$> got ++ [r] ↔ k ∈ slot <$> got) as Hiff.
    { rewrite fmap_app, elem_of_app. simpl.
      rewrite list_elem_of_singleton. tauto. }
    repeat case_decide; try congruence; tauto.
Qed.

Lemma filled_all (got : list ValidateResult) :
  slot <$> got ≡ₚ seq 0 (length customers) →
  filled MapToLower customers got = ordered_outcomes MapToLower customers.
Proof.
  intros Hperm.
  apply list_eq_same_length with (length customers);
    [apply length_imap|apply length_filled|].
  intros k x y Hk. rewrite filled_lookup by done.
  rewrite ordered_outcomes_lookup.
  rewrite decide_True by (rewrite Hperm; apply elem_of_seq; lia).
  unfold outcome_at, job_at.
  destruct (customers !! k) eqn:E; simpl; [congruence|].
  apply lookup_ge_None in E. lia.
Qed.

Lemma worker_ok_closed (closed : bool) (w : worker) :
  worker_ok customers closed w → worker_ok customers true w.
Proof. by destruct w. Qed.

Lemma caller_ok_workers (got : list ValidateResult) (m : caller)
    (ws ws' : list worker) (p p' : option producer) :
  length ws = length ws' → (p = None ↔ p' = None) →
  caller_ok MapToLower customers workers got m ws p →
  caller_ok MapToLower customers workers got m ws' p'.
Proof.
  intros Hlen Hp. destruct m; simpl; rewrite ?Hlen; tauto.
Qed.

Lemma sent_le (p : option producer) (closed : bool) :
  producer_ok customers p closed → (sent customers p ≤ length customers)%nat.
Proof. destruct p as [[i|]|]; simpl; lia. Qed.

Lemma seq_submseteq (n m : nat) : (n ≤ m)%nat → seq 0 n ⊆+ seq 0 m.
Proof.
  intros H. replace m with (n + (m - n))%nat by lia.
  rewrite seq_app. by apply submseteq_inserts_r.
Qed.

(** The slots collected so far are distinct positions of [out]. *)
Lemma got_slots (made got : list ValidateResult) (s : state) :
  invariant MapToLower customers workers made got s →
  slot <$> got ⊆+ seq 0 (length customers).
Proof.
  intros [Hp _ _ Hs Hg _].
  trans (slot <$> made).
  { rewrite <-Hg, fmap_app. by apply submseteq_inserts_r. }
  trans (seq 0 (sent customers (st_producer s))).
  { rewrite <-Hs. by apply submseteq_inserts_r. }
  eapply seq_submseteq, sent_le, Hp.
Qed.

Ltac inv_split :=
  split; simpl;
  rewrite ?bind_app, ?bind_cons, ?fmap_app, ?app_nil_r; simpl;
  rewrite ?app_nil_r.

Lemma invariant_step (a : action) (s s' : state)
    (made got : list ValidateResult) :
  invariant MapToLower customers workers made got s →
  step_by MapToLower customers workers a s = Some s' →
  invariant MapToLower customers workers
            (made ++ builds MapToLower a s) (got ++ hands a s) s'.
Proof.
  intros Hinv H. pose proof (got_slots _ _ _ Hinv) as Hslots.
  destruct Hinv as [Hp Hw Hm Hs Hg Hc].
  destruct s as [m ws p closed], a; step_cases H; simpl in *;
    repeat match goal with
           | E : ?x = _ |- context [?x] => rewrite E
           end; simpl; rewrite ?app_nil_r.
  - (* the caller starts a worker *)
    destruct Hc as (-> & Hw1 & Hw2). inv_split.
    + done.
    + apply Forall_app. split; [done|]. by repeat constructor.
    + done.
    + done.
    + done.
    + rewrite length_app. simpl. repeat split; try done; lia.
  - (* the caller starts the producer and makes [out] *)
    destruct Hc as (-> & Hw1 & Hw2). simpl in *.
    apply Permutation_nil_r, app_eq_nil in Hs as [Hs1 Hs2].
    apply fmap_nil_inv in Hs1 as ->.
    apply Permutation_nil_r, app_eq_nil in Hg as [-> Hg2].
    inv_split.
    + split; [lia|done].
    + done.
    + done.
    + by rewrite Hs2.
    + by rewrite Hg2.
    + repeat split; try done; [lia|]. symmetry. apply filled_nil.
  - (* the caller returns *)
    destruct Hc as (Hpn & Hlen & -> & ->).
    inv_split; try done.
    split; [done|]. split; [done|]. apply filled_all.
    apply submseteq_length_Permutation; [done|].
    rewrite length_seq, length_fmap. lia.
  - (* a job goes to worker [k] *)
    destruct Hp as [Hi ->].
    match goal with
    | E : customers !! _ = Some _ |- _ =>
        pose proof (lookup_lt_Some _ _ _ E) as Hlt; rename E into Hc0
    end.
    split_workers. rewrite !bind_app, !bind_cons in *. simpl in *.
    apply Forall_app in Hw as [Hw1 Hw2]. apply Forall_cons in Hw2 as [_ Hw2].
    inv_split.
    + split; [lia|done].
    + apply Forall_app. split; [done|]. constructor; [|done]. simpl.
      unfold job_at. by rewrite Nat2Z.id, Hc0.
    + done.
    + rewrite Nat2Z.id.
      match goal with
      | |- _ ≡ₚ ?l => change l with (seq 0 (S i))
      end.
      rewrite seq_S, <-Hs. simpl. solve_Permutation.
    + done.
    + eapply caller_ok_workers; [| |exact Hc]; [|done].
      by rewrite !length_app.
  - (* the producer closes [jobs] *)
    destruct Hp as [Hi ->].
    match goal with
    | E : customers !! _ = None |- _ => apply lookup_ge_None in E
    end.
    assert (i = length customers) as -> by lia.
    inv_split; try done.
    + eapply Forall_impl; [exact Hw|]. apply worker_ok_closed.
    + eapply caller_ok_workers; [| |exact Hc]; done.
  - (* worker [k] builds its outcome *)
    split_workers. rewrite !bind_app, !bind_cons in *. simpl in *.
    apply Forall_app in Hw as [Hw1 Hw2]. apply Forall_cons in Hw2 as [Hj Hw2].
    simpl in Hj. inv_split.
    + done.
    + apply Forall_app. split; [done|]. by constructor.
    + apply Forall_app. split; [done|]. repeat constructor.
      unfold genuine, outcome_at, slot.
      by rewrite work_Index, Hj.
    + unfold slot at 2. rewrite work_Index, <-Hs. solve_Permutation.
    + rewrite <-Hg. solve_Permutation.
    + eapply caller_ok_workers; [| |exact Hc]; [|done].
      by rewrite !length_app.
  - (* worker [k] hands its outcome to the collector, which stores it *)
    destruct Hc as (Hpn & Hlen & -> & ->).
    match goal with E : store _ _ = _ |- _ => rename E into Hst end.
    split_workers. rewrite !bind_app, !bind_cons in *. simpl in *.
    apply Forall_app in Hw as [Hw1 Hw2]. apply Forall_cons in Hw2 as [_ Hw2].
    assert (genuine MapToLower customers r) as Hr.
    { eapply Forall_forall; [exact Hm|]. rewrite <-Hg.
      rewrite !elem_of_app, elem_of_cons. auto. }
    inv_split.
    + done.
    + apply Forall_app. split; [done|]. by constructor.
    + done.
    + done.
    + rewrite <-Hg. solve_Permutation.
    + rewrite !length_app in *. simpl in *. repeat split; try done; [lia|].
      unfold store in Hst. case_match; [|done]. injection Hst as <-.
      by apply filled_snoc.
  - (* the bounds check of [out[r.Index] = r] cannot fail *)
    exfalso. destruct Hc as (Hpn & Hlen & -> & ->).
    match goal with E : store _ _ = _ |- _ => rename E into Hst end.
    assert (genuine MapToLower customers r) as Hr.
    { eapply Forall_forall; [exact Hm|]. rewrite <-Hg.
      match goal with
      | E : ws !! _ = Some _ |- _ => apply list_elem_of_lookup_2 in E
      end.
      rewrite elem_of_app. right. apply list_elem_of_bind.
      exists (WSend r). split; [|done]. simpl. by left. }
    apply genuine_Index in Hr as [HI Hlt].
    unfold store in Hst. rewrite length_filled in Hst.
    case_match; [done|]. lia.
  - (* worker [k] leaves its loop *)
    split_workers.
    apply Forall_app in Hw as [Hw1 Hw2]. apply Forall_cons in Hw2 as [_ Hw2].
    rewrite !bind_app, !bind_cons in *. simpl in *. inv_split; try done.
    + apply Forall_app. split; [done|]. by constructor.
    + eapply caller_ok_workers; [| |exact Hc]; [|done].
      by rewrite !length_app.
Qed.
Lemma invariant_initial :
  invariant MapToLower customers workers [] [] initial.
Proof.
  split; simpl; try done. repeat split; try done; lia.
Qed.

Lemma invariant_run (tr : list action) (s s' : state)
    (made got : list ValidateResult) :
  invariant MapToLower customers workers made got s →
  run MapToLower customers workers tr s = Some s' →
  invariant MapToLower customers workers
            (made ++ log MapToLower customers workers (builds MapToLower) tr s)
            (got ++ log MapToLower customers workers hands tr s) s'.
Proof.
  revert s made got. induction tr as [|a tr IH]; intros s made got Hinv H.
  - simpl in *. injection H as <-. by rewrite !app_nil_r.
  - simpl in *.
    destruct (step_by MapToLower customers workers a s) as [s1|] eqn:Ha;
      [|done].
    rewrite !app_assoc. apply IH; [|done]. by apply invariant_step.
Qed.

(** The invariant holds along every execution of the call. *)
Lemma invariant_reachable (tr : list action) (s : state) :
  bulkValidateWithWorkerPool MapToLower customers workers tr = Some s →
  invariant MapToLower customers workers
            (produced MapToLower customers workers tr initial)
            (collected MapToLower customers workers tr initial) s.
Proof.
  intros H. apply (invariant_run tr initial s [] [] invariant_initial H).
Qed.

(** An execution from [s] is no longer than [cost s]. *)
Lemma run_cost (tr : list action) (s s' : state) :
  run MapToLower customers workers tr s = Some s' →
  (length tr + cost customers workers s' ≤ cost customers workers s)%nat.
Proof.
  revert s. induction tr as [|a tr IH]; intros s H; simpl in *.
  - injection H as <-. lia.
  - destruct (step_by MapToLower customers workers a s) as [s1|] eqn:Ha;
      [|done].
    apply step_cost in Ha. apply IH in H. lia.
Qed.

Lemma workers_cases (ws : list worker) :
  (∃ k r, ws !! k = Some (WSend r)) ∨ (∃ k j, ws !! k = Some (WSleep j))
  ∨ Forall (λ w, w = WRange ∨ w = WExit) ws.
Proof.
  induction ws as [|w ws IH]; [by right; right|].
  destruct IH as [(k & r & H)|[(k & j & H)|H]].
  - left. by exists (S k), r.
  - right. left. by exists (S k), j.
  - destruct w as [|j|r|].
    + right. right. constructor; auto.
    + right. left. by exists 0%nat, j.
    + left. by exists 0%nat, r.
    + right. right. constructor; auto.
Qed.

Lemma idle_workers (ws : list worker) :
  Forall (λ w, w = WRange ∨ w = WExit) ws →
  ws ≫= sleeping = [] ∧ ws ≫= sending = [].
Proof.
  induction 1 as [|w ws [-> | ->] _ [IH1 IH2]]; [done|..];
    by rewrite !bind_cons, IH1, IH2.
Qed.

(** With at least one worker the call cannot get stuck before it returns:
    some goroutine can always move. *)
Lemma progress (made got : list ValidateResult) (s : state) :
  1 ≤ workers →
  invariant MapToLower customers workers made got s →
  returned s = None →
  ∃ a s', step_by MapToLower customers workers a s = Some s'.
Proof.
  intros Hworkers [Hp Hw Hm Hs Hg Hc] Hret.
  destruct s as [m ws p closed]. simpl in *.
  destruct m as [w|i out|out|]; [| |done|done].
  - exists Main. simpl. destruct (w <? workers); eauto.
  - destruct Hc as (Hpn & Hlen & -> & ->).
    destruct (Z.ltb_spec (Z.of_nat (length got))
                         (Z.of_nat (length customers))) as [Hlt|Hge].
    2:{ exists Main. simpl.
        destruct (Z.ltb_spec (Z.of_nat (length got))
                             (Z.of_nat (length customers))); [lia|eauto]. }
    destruct (workers_cases ws) as [(k & r & Hk)|[(k & j & Hk)|Hidle]].
    + exists (Result k). simpl. rewrite Hk.
      destruct (Z.ltb_spec (Z.of_nat (length got))
                           (Z.of_nat (length customers))); [|lia].
      destruct (store _ r); eauto.
    + exists (Work k). simpl. rewrite Hk. eauto.
    + destruct (idle_workers ws Hidle) as [Hsl Hsd].
      rewrite Hsl, Hsd, !app_nil_r in *.
      apply Permutation_length in Hs, Hg.
      rewrite length_fmap, length_seq in Hs.
      destruct p as [[i|]|]; simpl in *; [| lia | done].
      destruct Hp as [Hi ->].
      destruct ws as [|w ws]; simpl in *; [lia|].
      apply Forall_cons in Hw as [Hw0 _].
      apply Forall_cons in Hidle as [[-> | ->] _]; [|done].
      destruct (customers !! i) as [c|] eqn:Hc.
      * exists (Job 0). simpl. eauto.
      * apply lookup_ge_None in Hc. lia.
Qed.

Lemma returned_ordered (made got : list ValidateResult) (s : state)
    (out : list ValidateResult) :
  invariant MapToLower customers workers made got s →
  returned s = Some out → out = ordered_outcomes MapToLower customers.
Proof.
  intros [_ _ _ _ _ Hc]. unfold returned.
  destruct (st_main s); try done. intros [= <-]. by destruct Hc as (_ & _ & ->).
Qed.

Lemma never_panics (made got : list ValidateResult) (s : state) :
  invariant MapToLower customers workers made got s → st_main s ≠ MPanic.
Proof. intros [_ _ _ _ _ Hc] Hm. by rewrite Hm in Hc. Qed.

(** From every state of the call some schedule leads to its return. *)
Lemma can_return (made got : list ValidateResult) (s : state) :
  1 ≤ workers →
  invariant MapToLower customers workers made got s →
  ∃ tr s', run MapToLower customers workers tr s = Some s'
           ∧ returned s' = Some (ordered_outcomes MapToLower customers).
Proof.
  intros Hworkers. remember (cost customers workers s) as n eqn:Hn.
  revert made got s Hn.
  induction n as [n IH] using lt_wf_ind. intros made got s -> Hinv.
  destruct (returned s) as [out|] eqn:Hret.
  - exists [], s. split; [done|].
    by rewrite Hret, (returned_ordered _ _ _ _ Hinv Hret).
  - destruct (progress _ _ _ Hworkers Hinv Hret) as (a & s1 & Ha).
    destruct (IH _ (step_cost _ _ _ Ha) _ _ s1 eq_refl
                 (invariant_step _ _ _ _ _ Hinv Ha)) as (tr & s' & Hrun & Hs').
    exists (a :: tr), s'. simpl. by rewrite Ha.
Qed.

Lemma enabled_in_actions (a : action) (s s' : state) :
  step_by MapToLower customers workers a s = Some s' →
  a ∈ actions (length (st_workers s)).
Proof.
  intros H. unfold actions.
  assert (∀ k, (k < length (st_workers s))%nat →
               ∀ f, f k ∈ [Result k; Work k; Job k; Leave k] →
                    f k ∈ Main :: Close :: (seq 0 (length (st_workers s)) ≫=
                            λ k, [Result k; Work k; Job k; Leave k]))
    as Hin.
  { intros k Hk f Hf. do 2 apply list_elem_of_further.
    apply list_elem_of_bind. exists k. split; [done|].
    apply elem_of_seq. lia. }
  destruct s as [m ws p closed], a as [|k| |k|k|k]; simpl in *.
  - apply list_elem_of_here.
  - apply (Hin k); [|by repeat constructor]. step_cases H.
    by eapply lookup_lt_Some.
  - apply list_elem_of_further, list_elem_of_here.
  - apply (Hin k); [|by repeat constructor]. step_cases H.
    by eapply lookup_lt_Some.
  - apply (Hin k); [|by repeat constructor]. step_cases H;
      by eapply lookup_lt_Some.
  - apply (Hin k); [|by repeat constructor]. step_cases H.
    by eapply lookup_lt_Some.
Qed.

Lemma first_enabled_Some (a : action) (s : state) :
  first_enabled MapToLower customers workers s = Some a →
  is_Some (step_by MapToLower customers workers a s).
Proof.
  unfold first_enabled. intros [_ H]%find_some.
  by apply bool_decide_eq_true in H.
Qed.

Lemma first_enabled_None (a : action) (s : state) :
  first_enabled MapToLower customers workers s = None →
  step_by MapToLower customers workers a s = None.
Proof.
  unfold first_enabled. intros H.
  destruct (step_by MapToLower customers workers a s) as [s'|] eqn:Ha;
    [|done].
  pose proof (enabled_in_actions _ _ _ Ha) as Hin.
  apply list_elem_of_In in Hin.
  apply (find_none _ _ H) in Hin. apply bool_decide_eq_false in Hin.
  destruct Hin. rewrite Ha. eauto.
Qed.

(** The scheduler that always takes the first enabled action brings the
    call to its return within [cost] steps. *)
Lemma exec_returns (fuel : nat) (made got : list ValidateResult) (s : state) :
  1 ≤ workers →
  invariant MapToLower customers workers made got s →
  (cost customers workers s ≤ fuel)%nat →
  returned (exec MapToLower customers workers fuel s)
  = Some (ordered_outcomes MapToLower customers).
Proof.
  intros Hworkers. revert made got s.
  induction fuel as [|fuel IH]; intros made got s Hinv Hfuel.
  - simpl. destruct (returned s) as [out|] eqn:Hret.
    + by rewrite (returned_ordered _ _ _ _ Hinv Hret).
    + destruct (progress _ _ _ Hworkers Hinv Hret) as (a & s1 & Ha).
      apply step_cost in Ha. lia.
  - simpl.
    destruct (first_enabled MapToLower customers workers s) as [a|] eqn:Hfirst.
    + destruct (first_enabled_Some _ _ Hfirst) as [s1 Ha]. rewrite Ha.
      apply (IH _ _ _ (invariant_step _ _ _ _ _ Hinv Ha)).
      apply step_cost in Ha. lia.
    + destruct (returned s) as [out|] eqn:Hret.
      * by rewrite (returned_ordered _ _ _ _ Hinv Hret).
      * destruct (progress _ _ _ Hworkers Hinv Hret) as (a & s1 & Ha).
        by rewrite (first_enabled_None a _ Hfirst) in Ha.
Qed.

(** Without the handler's resolution a worker count of zero or less
    leaves a non-empty batch waiting for ever. *)
Lemma no_workers_no_return (tr : list action) (s : state) :
  workers ≤ 0 → customers ≠ [] →
  bulkValidateWithWorkerPool MapToLower customers workers tr = Some s →
  returned s = None.
Proof.
  intros Hworkers Hne.
  assert (∀ s0, st_workers s0 = [] →
                (st_main s0 = MSpawn 0 ∨ ∃ out, st_main s0 = MCollect 0 out) →
                run MapToLower customers workers tr s0 = Some s →
                returned s = None) as Hgen.
  { induction tr as [|a tr IH]; intros s0 Hws Hm H; simpl in *.
    - injection H as <-. unfold returned.
      by destruct Hm as [-> | [out ->]].
    - destruct (step_by MapToLower customers workers a s0) as [s1|] eqn:Ha;
        [|done].
      apply (IH s1); [| |done];
        destruct s0 as [m ws p closed]; simpl in *; subst ws;
        destruct Hm as [-> | [out ->]];
        destruct a; step_cases Ha; simpl; eauto; try lia;
        destruct customers; simpl in *; try done; lia. }
  unfold bulkValidateWithWorkerPool. apply Hgen; simpl; auto.
Qed.

End PoolFacts.

(** ** The call as the handler makes it *)

Lemma resolveWorkers_range (requested : Z) :
  1 ≤ resolveWorkers requested ≤ 20.
Proof.
  unfold resolveWorkers.
  destruct (Z.leb_spec requested 0); simpl;
    repeat match goal with
           | |- context [?a <? ?b] => destruct (Z.ltb_spec a b)
           end; lia.
Qed.

Lemma validateBatch_invariant (MapToLower : string → string)
    (customers : list CustomerPayload) (requested : Z)
    (tr : list action) (s : state) :
  validateBatch MapToLower customers requested tr = Some s →
  invariant MapToLower customers (resolveWorkers requested)
            (produced MapToLower customers (resolveWorkers requested) tr initial)
            (collected MapToLower customers (resolveWorkers requested) tr initial)
            s.
Proof. apply invariant_reachable. Qed.

Lemma returns_ordered (MapToLower : string → string)
    (customers : list CustomerPayload) (requested : Z) :
  returns MapToLower customers requested
          (ordered_outcomes MapToLower customers).
Proof.
  apply (can_return MapToLower customers (resolveWorkers requested) [] []).
  - apply resolveWorkers_range.
  - apply invariant_initial.
Qed.

Lemma returns_unique (MapToLower : string → string)
    (customers : list CustomerPayload) (requested : Z)
    (out : list ValidateResult) :
  returns MapToLower customers requested out →
  out = ordered_outcomes MapToLower customers.
Proof.
  intros (tr & s & Hrun & Hret).
  eapply returned_ordered; [|exact Hret].
  by apply validateBatch_invariant.
Qed.

Lemma ordered_outcomes_at (MapToLower : string → string)
    (customers : list CustomerPayload) (i : nat) (c : CustomerPayload) :
  customers !! i = Some c →
  ordered_outcomes MapToLower customers !! i
  = Some (work MapToLower (mkJob (Z.of_nat i) c)).
Proof.
  intros H. unfold ordered_outcomes. by rewrite list_lookup_imap, H.
Qed.

(** ** The claims *)

(** C1: for every batch and every requested worker count the call returns,
    and what it returns has the length of the batch and holds at every
    position [i] the outcome that carries index [i].  The call returns
    under the first-enabled scheduler within [cost] steps, and under no
    schedule can it run for ever or stop without returning. *)
Theorem validateBatch_length_order (MapToLower : string → string)
    (customers : list CustomerPayload) (requested : Z) :
  (∃ out, returns MapToLower customers requested out) ∧
  returned (exec MapToLower customers (resolveWorkers requested)
                 (cost customers (resolveWorkers requested) initial) initial)
  = Some (ordered_outcomes MapToLower customers) ∧
  (∀ tr s, validateBatch MapToLower customers requested tr = Some s →
           ¬ blocked MapToLower customers (resolveWorkers requested) s ∧
           (length tr ≤ cost customers (resolveWorkers requested) initial)%nat) ∧
  ∀ out, returns MapToLower customers requested out →
         length out = length customers ∧
         ∀ i, (i < length customers)%nat →
              Index <$> out !! i = Some (Z.of_nat i).
Proof.
  pose proof (resolveWorkers_range requested) as [Hw _].
  split; [eexists; apply returns_ordered|].
  split.
  { eapply exec_returns; [done|apply invariant_initial|done]. }
  split.
  { intros tr s Hrun. split; [|apply run_cost in Hrun; lia].
    intros [Hret Hblocked].
    destruct (progress _ _ _ _ _ _ Hw (validateBatch_invariant _ _ _ _ _ Hrun)
                       Hret) as (a & s' & Ha).
    by rewrite Hblocked in Ha. }
  intros out ->%returns_unique. split; [apply length_imap|].
  intros i Hi. destruct (lookup_lt_is_Some_2 customers i Hi) as [c Hc].
  rewrite (ordered_outcomes_at _ _ _ _ Hc). simpl. by rewrite work_Index.
Qed.

Lemma validateBatch_length_order_witness :
  ∃ out, returns sample_MapToLower sample_batch 2 out
         ∧ length out = 3%nat ∧ Index <$> out !! 2%nat = Some 2.
Proof.
  exists (ordered_outcomes sample_MapToLower sample_batch).
  assert (returns sample_MapToLower sample_batch 2
            (ordered_outcomes sample_MapToLower sample_batch)) as Hr.
  { exists sample_interleaving, (exec sample_MapToLower sample_batch 2 30 initial).
    split; vm_compute; reflexivity. }
  destruct (validateBatch_length_order sample_MapToLower sample_batch 2)
    as (_ & _ & _ & H).
  destruct (H _ Hr) as [Hlen Hidx].
  split; [exact Hr|]. split; [exact Hlen|]. apply (Hidx 2%nat). simpl. lia.
Defined.

(** C2: for a fixed batch any two worker counts in [1, 20] give the same
    result, in content and order: the result is a function of the records
    alone. *)
Theorem validateBatch_worker_independent (MapToLower : string → string)
    (customers : list CustomerPayload) (w1 w2 : Z) :
  1 ≤ w1 ≤ 20 → 1 ≤ w2 ≤ 20 →
  returns MapToLower customers w1 (ordered_outcomes MapToLower customers) ∧
  returns MapToLower customers w2 (ordered_outcomes MapToLower customers) ∧
  ∀ out1 out2, returns MapToLower customers w1 out1 →
               returns MapToLower customers w2 out2 → out1 = out2.
Proof.
  intros _ _. split; [apply returns_ordered|]. split; [apply returns_ordered|].
  by intros out1 out2 ->%returns_unique ->%returns_unique.
Qed.

Lemma validateBatch_worker_independent_witness :
  returns sample_MapToLower sample_batch 1
          (ordered_outcomes sample_MapToLower sample_batch) ∧
  returns sample_MapToLower sample_batch 20
          (ordered_outcomes sample_MapToLower sample_batch) ∧
  ordered_outcomes sample_MapToLower sample_batch
  = ordered_outcomes sample_MapToLower sample_batch.
Proof.
  destruct (validateBatch_worker_independent sample_MapToLower sample_batch
              1 20) as (H1 & H20 & Heq); [lia|lia|].
  split; [exact H1|]. split; [exact H20|]. exact (Heq _ _ H1 H20).
Defined.

(** C4: a requested worker count of zero or less resolves to 5, one above
    20 resolves to 20, one in [1, 20] is used as it is; the resolution is
    a total function, so it never fails, and its value is in [1, 20]. *)
Theorem resolveWorkers_clamps (requested : Z) :
  (requested ≤ 0 → resolveWorkers requested = 5) ∧
  (20 < requested → resolveWorkers requested = 20) ∧
  (1 ≤ requested ≤ 20 → resolveWorkers requested = requested) ∧
  1 ≤ resolveWorkers requested ≤ 20.
Proof.
  unfold resolveWorkers.
  destruct (Z.leb_spec requested 0); simpl;
    repeat match goal with
           | |- context [?a <? ?b] => destruct (Z.ltb_spec a b)
           end; lia.
Qed.

Lemma resolveWorkers_clamps_witness :
  resolveWorkers (-3) = 5 ∧ resolveWorkers 64 = 20 ∧ resolveWorkers 7 = 7.
Proof.
  split; [apply (resolveWorkers_clamps (-3)); lia|].
  split; [apply (resolveWorkers_clamps 64); lia|].
  apply (resolveWorkers_clamps 7); lia.
Defined.

(** C5: a record whose trimmed full_name is not empty and whose trimmed
    email is not empty and contains '@' is invalid with the message
    "email too long" when that email is longer than 150, the length being
    counted as the code counts it, in bytes. *)
Theorem email_too_long (MapToLower : string → string) (c : CustomerPayload) :
  strings.TrimSpace (FullName c) ≠ "" →
  strings.TrimSpace (Email c) ≠ "" →
  strings.Contains (strings.TrimSpace (Email c)) "@" = true →
  (150 < String.length (strings.TrimSpace (Email c)))%nat →
  validateCustomer MapToLower c = (false, "email too long").
Proof.
  intros Hname Hemail Hat Hlen. unfold validateCustomer.
  apply String.eqb_neq in Hname, Hemail. rewrite Hname, Hemail, Hat. simpl.
  destruct (Z.ltb_spec 150 (Z.of_nat (String.length
                                        (strings.TrimSpace (Email c)))));
    [done|lia].
Qed.

Lemma email_too_long_witness :
  validateCustomer sample_MapToLower {| FullName := "A"; Email := long_email |}
  = (false, "email too long").
Proof.
  apply email_too_long; vm_compute; first [discriminate | reflexivity | lia].
Defined.

(** Characters are code points: a trimmed email of more than 150 of them
    has more than 150 bytes. *)
Lemma email_too_long_runes (MapToLower : string → string)
    (c : CustomerPayload) :
  strings.TrimSpace (FullName c) ≠ "" →
  strings.Contains (strings.TrimSpace (Email c)) "@" = true →
  (150 < strings.RuneCount (strings.TrimSpace (Email c)))%nat →
  validateCustomer MapToLower c = (false, "email too long").
Proof.
  intros Hname Hat Hlen.
  pose proof (RuneCount_le (strings.TrimSpace (Email c))) as Hle.
  unfold validateCustomer.
  apply String.eqb_neq in Hname. rewrite Hname, Hat. simpl.
  destruct (String.eqb_spec (strings.TrimSpace (Email c)) "") as [He|_].
  { rewrite He in Hlen, Hle. simpl in Hle. lia. }
  destruct (Z.ltb_spec 150 (Z.of_nat (String.length
                                        (strings.TrimSpace (Email c)))));
    [done|lia].
Qed.

(** C6: the message of an outcome is present exactly when the outcome is
    invalid; a valid outcome carries the empty message. *)
Theorem message_iff_invalid (MapToLower : string → string) (j : job) :
  (snd (validateCustomer MapToLower (data j)) ≠ ""
   ↔ fst (validateCustomer MapToLower (data j)) = false) ∧
  (Message (work MapToLower j) ≠ "" ↔ Valid (work MapToLower j) = false) ∧
  (Valid (work MapToLower j) = true → Message (work MapToLower j) = "").
Proof.
  pose proof (work_verdict MapToLower j) as Hv.
  pose proof (validateCustomer_message MapToLower (data j)) as Hm.
  split; [done|].
  rewrite <-Hv in Hm. simpl in Hm. split; [done|].
  intros Ht. destruct (decide (Message (work MapToLower j) = "")); [done|].
  apply Hm in n. congruence.
Qed.

Lemma message_iff_invalid_witness :
  Message (work sample_MapToLower
                (mkJob 0 {| FullName := "A"; Email := "a@b.com" |})) = "".
Proof.
  apply (message_iff_invalid sample_MapToLower). reflexivity.
Defined.

(** ** The empty batch *)

Lemma run_app (MapToLower : string → string)
    (customers : list CustomerPayload) (workers : Z)
    (tr1 tr2 : list action) (s : state) :
  run MapToLower customers workers (tr1 ++ tr2) s
  = run MapToLower customers workers tr1 s
      ≫= run MapToLower customers workers tr2.
Proof.
  revert s. induction tr1 as [|a tr1 IH]; intros s; simpl; [done|].
  by destruct (step_by MapToLower customers workers a s).
Qed.

(** The spawn loop: [n] steps of the caller start [n] workers. *)
Lemma run_spawn (MapToLower : string → string)
    (customers : list CustomerPayload) (workers : Z) (n : nat) (w : Z)
    (ws : list worker) (p : option producer) (closed : bool) :
  w + Z.of_nat n = workers →
  run MapToLower customers workers (replicate n Main)
      (mkState (MSpawn w) ws p closed)
  = Some (mkState (MSpawn workers) (ws ++ replicate n WRange) p closed).
Proof.
  revert w ws. induction n as [|n IH]; intros w ws Hw; simpl.
  - rewrite app_nil_r. do 3 f_equal. lia.
  - destruct (Z.ltb_spec w workers); [|lia].
    rewrite IH by lia. by rewrite <-app_assoc.
Qed.

(** C7, as the code has it: the call on an empty batch returns the empty
    result after steps of the caller alone, which never waits for another
    goroutine; the workers, as many as the resolved worker count, and the
    producer are started all the same. *)
Theorem empty_batch_returns_unblocked (MapToLower : string → string)
    (requested : Z) :
  validateBatch MapToLower [] requested
    (replicate (Z.to_nat (resolveWorkers requested) + 2) Main)
  = Some (mkState (MReturn [])
                  (replicate (Z.to_nat (resolveWorkers requested)) WRange)
                  (Some (PLoop 0)) false) ∧
  (∀ tr s, validateBatch MapToLower [] requested tr = Some s →
           returned s = None →
           is_Some (step_by MapToLower [] (resolveWorkers requested) Main s)) ∧
  (∀ tr s out, validateBatch MapToLower [] requested tr = Some s →
               returned s = Some out →
               out = [] ∧
               Z.of_nat (length (st_workers s)) = resolveWorkers requested).
Proof.
  pose proof (resolveWorkers_range requested) as Hrange.
  split; [|split].
  - unfold validateBatch, bulkValidateWithWorkerPool, initial.
    rewrite replicate_add, run_app.
    rewrite (run_spawn _ _ _ _ _ _ _ _) by lia. simpl.
    destruct (Z.ltb_spec (resolveWorkers requested)
                         (resolveWorkers requested)); [lia|done].
  - intros tr s Hrun Hret.
    destruct (validateBatch_invariant _ _ _ _ _ Hrun) as [_ _ _ _ _ Hc].
    destruct s as [m ws p closed]. simpl in *.
    destruct m as [w|i out|out|]; simpl in *; [| |done|done].
    + destruct (w <? resolveWorkers requested); eauto.
    + destruct Hc as (_ & _ & -> & _).
      match goal with
      | |- context [?a <? ?b] => destruct (Z.ltb_spec a b)
      end; [simpl in *; lia|eauto].
  - intros tr s out Hrun Hret.
    destruct (validateBatch_invariant _ _ _ _ _ Hrun) as [_ _ _ _ _ Hc].
    unfold returned in Hret. destruct (st_main s); try done.
    injection Hret as ->. destruct Hc as (_ & Hlen & ->). split; [done|lia].
Qed.

Lemma empty_batch_returns_unblocked_witness :
  is_Some (step_by sample_MapToLower [] (resolveWorkers 0) Main
                   (mkState (MSpawn 2) [WRange; WRange] None false))
  ∧ Z.of_nat (length [WRange; WRange; WRange; WRange; WRange])
    = resolveWorkers 0.
Proof.
  destruct (empty_batch_returns_unblocked sample_MapToLower 0)
    as (_ & Hstep & Hret).
  split.
  - apply (Hstep [Main; Main]); reflexivity.
  - apply (Hret [Main; Main; Main; Main; Main; Main; Main]
                (mkState (MReturn []) [WRange; WRange; WRange; WRange; WRange]
                         (Some (PLoop 0)) false) []); reflexivity.
Defined.

(** C7, as the claim words it, fails: with one worker requested the call
    on the empty batch returns the empty result with a worker goroutine
    and the producer started. *)
Lemma empty_batch_starts_workers :
  st_workers <$> validateBatch sample_MapToLower [] 1 [Main; Main; Main]
  = Some [WRange] ∧
  st_producer <$> validateBatch sample_MapToLower [] 1 [Main; Main; Main]
  = Some (Some (PLoop 0)) ∧
  validateBatch sample_MapToLower [] 1 [Main; Main; Main] ≫= returned
  = Some [].
Proof. repeat split. Qed.

(** ** Errors, trimmed emails and the collector's writes *)

Lemma NoDup_submseteq_inv {A} (l k : list A) : l ⊆+ k → NoDup k → NoDup l.
Proof.
  intros [k' Hk]%submseteq_Permutation Hnd. rewrite Hk in Hnd.
  by apply NoDup_app in Hnd as [? _].
Qed.

(** The outcomes produced carry distinct indices inside the batch, and the
    collector received some of them, each at most once. *)
Lemma produced_distinct (MapToLower : string → string)
    (customers : list CustomerPayload) (workers : Z)
    (made got : list ValidateResult) (s : state) :
  invariant MapToLower customers workers made got s →
  Forall (λ r, 0 ≤ Index r < Z.of_nat (length customers)) made ∧
  NoDup (Index <$> made) ∧ got ⊆+ made.
Proof.
  intros [_ _ Hm Hs Hg _]. split; [|split].
  - eapply Forall_impl; [exact Hm|]. intros r [HI Hlt]%genuine_Index. lia.
  - apply (NoDup_fmap_1 Z.to_nat). rewrite <-list_fmap_compose.
    pose proof (NoDup_seq 0 (sent customers (st_producer s))) as Hnd.
    rewrite <-Hs in Hnd. by apply NoDup_app in Hnd as [? _].
  - rewrite <-Hg. by apply submseteq_inserts_r.
Qed.

(** C8: the call never fails as a whole.  Under every schedule it is never
    stopped by a panic and never blocked for ever, it takes a bounded
    number of steps, and it can always go on to return the complete
    result, in which a record that fails validation is an outcome with
    [Valid = false] and the validator's message. *)
Theorem validateBatch_never_fails (MapToLower : string → string)
    (customers : list CustomerPayload) (requested : Z)
    (tr : list action) (s : state) :
  validateBatch MapToLower customers requested tr = Some s →
  st_main s ≠ MPanic ∧
  ¬ blocked MapToLower customers (resolveWorkers requested) s ∧
  (length tr ≤ cost customers (resolveWorkers requested) initial)%nat ∧
  (∃ tr' s',
      run MapToLower customers (resolveWorkers requested) tr' s = Some s'
      ∧ returned s' = Some (ordered_outcomes MapToLower customers)) ∧
  ∀ i c msg,
    customers !! i = Some c →
    validateCustomer MapToLower c = (false, msg) →
    ordered_outcomes MapToLower customers !! i
    = Some {| Index := Z.of_nat i;
              ResultEmail := strings.TrimSpace (Email c);
              Valid := false;
              Message := msg |}
    ∧ msg ≠ "".
Proof.
  intros Hrun. pose proof (validateBatch_invariant _ _ _ _ _ Hrun) as Hinv.
  pose proof (resolveWorkers_range requested) as [Hw _].
  split; [by eapply never_panics|].
  split.
  { intros [Hret Hblocked].
    destruct (progress _ _ _ _ _ _ Hw Hinv Hret) as (a & s' & Ha).
    by rewrite Hblocked in Ha. }
  split; [apply run_cost in Hrun; lia|].
  split; [by eapply can_return|].
  intros i c msg Hc Hv. rewrite (ordered_outcomes_at _ _ _ _ Hc).
  unfold work. simpl. rewrite Hv. split; [done|].
  pose proof (validateCustomer_message MapToLower c) as Hm.
  rewrite Hv in Hm. simpl in Hm. by apply Hm.
Qed.

Lemma validateBatch_never_fails_witness :
  ordered_outcomes sample_MapToLower sample_batch !! 1%nat
  = Some {| Index := 1; ResultEmail := "x@Example.com"; Valid := false;
            Message := "example.com emails are not allowed" |}.
Proof.
  pose proof (validateBatch_never_fails sample_MapToLower sample_batch 2
                [Main; Main; Main; Job 0; Job 1; Work 1; Result 1]
                (mkState
                   (MCollect 1
                      [zeroValidateResult;
                       {| Index := 1; ResultEmail := "x@Example.com";
                          Valid := false;
                          Message := "example.com emails are not allowed" |};
                       zeroValidateResult])
                   [WSleep (mkJob 0 {| FullName := ""; Email := "a@b.com" |});
                    WRange] (Some (PLoop 2)) false)
                eq_refl) as (_ & _ & _ & _ & H).
  apply (H 1%nat {| FullName := "A"; Email := " x@Example.com " |}
           "example.com emails are not allowed"); reflexivity.
Defined.

(** C9: the email an outcome carries is the record's email with the white
    space around it trimmed off, not the raw input: it differs from the
    input when that has leading or trailing white space. *)
Theorem outcome_email_trimmed (MapToLower : string → string)
    (customers : list CustomerPayload) (requested : Z)
    (out : list ValidateResult) (i : nat) (c : CustomerPayload) :
  returns MapToLower customers requested out →
  customers !! i = Some c →
  ∃ r, out !! i = Some r ∧
       ResultEmail r = strings.TrimSpace (Email c) ∧
       (strings.has_leading_space (Email c)
        || strings.has_trailing_space (Email c) = true →
        ResultEmail r ≠ Email c).
Proof.
  intros ->%returns_unique Hc. eexists. split; [by apply ordered_outcomes_at|].
  rewrite work_ResultEmail. simpl. split; [done|]. apply TrimSpace_changes.
Qed.

Lemma outcome_email_trimmed_witness :
  ∃ r, ordered_outcomes sample_MapToLower sample_batch !! 2%nat = Some r ∧
       ResultEmail r = "a@b.com" ∧ ResultEmail r ≠ " a@b.com".
Proof.
  assert (returns sample_MapToLower sample_batch 2
            (ordered_outcomes sample_MapToLower sample_batch)) as Hr.
  { exists sample_interleaving,
           (exec sample_MapToLower sample_batch 2 30 initial).
    split; vm_compute; reflexivity. }
  destruct (outcome_email_trimmed sample_MapToLower sample_batch 2 _ 2%nat
              {| FullName := " A "; Email := " a@b.com" |} Hr eq_refl)
    as (r & Hout & Hemail & Hne).
  exists r. split; [exact Hout|]. split; [exact Hemail|].
  apply Hne. reflexivity.
Defined.

(** C10: every outcome produced during a call carries an index in
    [0, N), N the length of the batch, and no two carry the same index; the
    collector receives produced outcomes only, so each write
    [out[r.Index] = r] is in bounds (the call is never stopped by the
    bounds check) and goes to a position not written before. *)
Theorem outcomes_in_bounds_distinct (MapToLower : string → string)
    (customers : list CustomerPayload) (workers : Z)
    (tr : list action) (s : state) :
  bulkValidateWithWorkerPool MapToLower customers workers tr = Some s →
  Forall (λ r, 0 ≤ Index r < Z.of_nat (length customers))
         (produced MapToLower customers workers tr initial) ∧
  NoDup (Index <$> produced MapToLower customers workers tr initial) ∧
  collected MapToLower customers workers tr initial
    ⊆+ produced MapToLower customers workers tr initial ∧
  NoDup (Index <$> collected MapToLower customers workers tr initial) ∧
  st_main s ≠ MPanic.
Proof.
  intros Hinv%invariant_reachable.
  destruct (produced_distinct _ _ _ _ _ _ Hinv) as (Hb & Hnd & Hsub).
  repeat split; try done.
  - eapply NoDup_submseteq_inv; [|exact Hnd]. by apply fmap_submseteq.
  - by eapply never_panics.
Qed.

Lemma outcomes_in_bounds_distinct_witness :
  NoDup (Index <$> collected sample_MapToLower sample_batch 2
                             sample_interleaving initial)
  ∧ Index <$> collected sample_MapToLower sample_batch 2
                        sample_interleaving initial = [1; 0; 2].
Proof.
  split; [|reflexivity].
  apply (outcomes_in_bounds_distinct sample_MapToLower sample_batch 2
           sample_interleaving
           (exec sample_MapToLower sample_batch 2 30 initial)).
  vm_compute. reflexivity.
Defined.

(** * More of the code *)

(** ** Trimming twice *)

Lemma strip_prefix_spec (p s t : string) :
  strings.strip_prefix p s = Some t ↔ s = String.append p t.
Proof.
  revert s. induction p as [|a p IH]; intros s.
  - change (String.append "" t) with t. simpl. split; congruence.
  - change (String.append (String a p) t) with (String a (String.append p t)).
    destruct s as [|b s]; simpl; [split; congruence|].
    destruct (Ascii.eqb_spec a b) as [->|Hne].
    + rewrite IH. split; congruence.
    + split; congruence.
Qed.

Lemma strip_any_Some (encs : list string) (s t : string) :
  strings.strip_any encs s = Some t →
  ∃ e, e ∈ encs ∧ s = String.append e t.
Proof.
  induction encs as [|e encs IH]; simpl; [done|].
  destruct (strings.strip_prefix e s) as [t'|] eqn:Hp.
  - intros [= ->]. exists e. split; [left|]. by apply strip_prefix_spec.
  - intros (e' & He' & Hs)%IH. exists e'. split; [by right|done].
Qed.

Lemma strip_any_is_Some (encs : list string) (e s t : string) :
  e ∈ encs → s = String.append e t → is_Some (strings.strip_any encs s).
Proof.
  intros He Hs. induction encs as [|e' encs IH]; simpl.
  - by apply elem_of_nil in He.
  - destruct (strings.strip_prefix e' s) eqn:Hp; [eauto|].
    apply elem_of_cons in He as [->|He]; [|by apply IH].
    apply strip_prefix_spec in Hs. congruence.
Qed.

Lemma append_assoc (s1 s2 s3 : string) :
  String.append (String.append s1 s2) s3
  = String.append s1 (String.append s2 s3).
Proof.
  induction s1 as [|a s1 IH]; [done|].
  change (String a (String.append (String.append s1 s2) s3)
          = String a (String.append s1 (String.append s2 s3))).
  by rewrite IH.
Qed.

Lemma drop_runes_suffix (encs : list string) (n : nat) (s : string) :
  ∃ d, s = String.append d (strings.drop_runes encs n s).
Proof.
  revert s. induction n as [|n IH]; intros s; simpl; [by exists ""|].
  destruct (strings.strip_any encs s) as [t|] eqn:Ht; [|by exists ""].
  apply strip_any_Some in Ht as (e & _ & ->).
  destruct (IH t) as [d Hd]. exists (String.append e d).
  rewrite append_assoc. by rewrite <-Hd.
Qed.

Lemma rev_app_append (s1 s2 : string) :
  String.rev_app s1 s2 = String.append (String.rev s1) s2.
Proof.
  unfold String.rev. revert s2. induction s1 as [|a s1 IH]; intros s2; [done|].
  simpl. rewrite (IH (String a s2)), (IH (String a "")).
  by rewrite append_assoc.
Qed.

Lemma rev_append (s1 s2 : string) :
  String.rev (String.append s1 s2)
  = String.append (String.rev s2) (String.rev s1).
Proof.
  induction s1 as [|a s1 IH].
  - change (String.append "" s2) with s2.
    change (String.rev "") with "". by rewrite append_empty_r.
  - change (String.append (String a s1) s2)
      with (String a (String.append s1 s2)).
    unfold String.rev at 1 3. simpl.
    rewrite !rev_app_append, IH. by rewrite append_assoc.
Qed.

(** What [TrimRightSpace] returns is a prefix of its argument. *)
Lemma TrimRightSpace_prefix (s : string) :
  ∃ d, s = String.append (strings.TrimRightSpace s) d.
Proof.
  unfold strings.TrimRightSpace.
  destruct (drop_runes_suffix (String.rev <$> strings.space_encodings)
                              (String.length s) (String.rev s)) as [d Hd].
  exists (String.rev d). rewrite <-rev_append, <-Hd.
  by rewrite rev_involutive.
Qed.

Lemma TrimSpace_no_leading_space (s : string) :
  strings.has_leading_space (strings.TrimSpace s) = false.
Proof.
  unfold strings.TrimSpace.
  pose proof (TrimLeftSpace_done s) as Hleft.
  destruct (TrimRightSpace_prefix (strings.TrimLeftSpace s)) as [d Hd].
  unfold strings.has_leading_space in *.
  apply bool_decide_eq_false. apply bool_decide_eq_false in Hleft.
  intros [t Ht]. apply Hleft.
  apply strip_any_Some in Ht as (e & He & Het).
  apply (strip_any_is_Some _ e _ (String.append t d) He).
  rewrite Hd at 1. by rewrite Het, append_assoc.
Qed.

(** A string without white space at its ends is what [TrimSpace] makes of
    it. *)
Lemma TrimSpace_fixed (s : string) :
  strings.has_leading_space s = false →
  strings.has_trailing_space s = false →
  strings.TrimSpace s = s.
Proof.
  intros Hl Ht. unfold strings.TrimSpace.
  apply bool_decide_eq_false in Hl. apply bool_decide_eq_false in Ht.
  assert (strings.TrimLeftSpace s = s) as ->.
  { apply drop_runes_None. by apply eq_None_not_Some. }
  unfold strings.TrimRightSpace.
  rewrite drop_runes_None by (by apply eq_None_not_Some).
  apply rev_involutive.
Qed.

Lemma TrimSpace_idempotent (s : string) :
  strings.TrimSpace (strings.TrimSpace s) = strings.TrimSpace s.
Proof.
  apply TrimSpace_fixed;
    [apply TrimSpace_no_leading_space|apply TrimSpace_no_trailing_space].
Qed.

(** ** The pool at rest, its bounds and what it needs to return *)

Section PoolMore.
Variable MapToLower : string → string.
Variable customers : list CustomerPayload.
Variable workers : Z.

(** Once the call has returned the collector has received as many outcomes
    as the batch has records. *)
Lemma returned_step (a : action) (s s' : state)
    (made got : list ValidateResult) :
  invariant MapToLower customers workers made got s →
  (∀ out, st_main s = MReturn out → (length customers ≤ length got)%nat) →
  step_by MapToLower customers workers a s = Some s' →
  ∀ out, st_main s' = MReturn out →
         (length customers ≤ length (got ++ hands a s))%nat.
Proof.
  intros [_ _ _ _ _ Hc] Hq H out Hout. rewrite length_app.
  destruct s as [m ws p closed], a; step_cases H; simpl in *;
    try discriminate Hout;
    try (specialize (Hq _ Hout); lia).
  destruct Hc as (_ & _ & -> & _). lia.
Qed.

Lemma returned_run (tr : list action) (s s' : state)
    (made got : list ValidateResult) :
  invariant MapToLower customers workers made got s →
  (∀ out, st_main s = MReturn out → (length customers ≤ length got)%nat) →
  run MapToLower customers workers tr s = Some s' →
  ∀ out, st_main s' = MReturn out →
         (length customers
          ≤ length (got ++ log MapToLower customers workers hands tr s))%nat.
Proof.
  revert s made got. induction tr as [|a tr IH]; intros s made got Hinv Hq H.
  - simpl in *. injection H as <-. by rewrite app_nil_r.
  - simpl in *.
    destruct (step_by MapToLower customers workers a s) as [s1|] eqn:Ha;
      [|done].
    rewrite app_assoc.
    apply (IH s1 (made ++ builds MapToLower a s));
      [by apply invariant_step|by eapply returned_step|done].
Qed.

Lemma returned_collected (tr : list action) (s : state)
    (out : list ValidateResult) :
  bulkValidateWithWorkerPool MapToLower customers workers tr = Some s →
  returned s = Some out →
  (length customers
   ≤ length (collected MapToLower customers workers tr initial))%nat.
Proof.
  intros Hrun Hret. unfold returned in Hret.
  destruct (st_main s) as [| |out'|] eqn:Hm; try done.
  apply (returned_run tr initial s [] [] (invariant_initial _ _ _)
                      ltac:(done) Hrun out' Hm).
Qed.

Lemma in_flight_le (ws : list worker) :
  (length (ws ≫= sleeping) + length (ws ≫= sending) ≤ length ws)%nat.
Proof.
  induction ws as [|w ws IH]; [done|].
  rewrite !bind_cons, !length_app. destruct w; simpl; lia.
Qed.

(** After the return nothing is in flight: every outcome produced has been
    collected, and the producer has handed over the whole batch. *)
Lemma returned_settled (tr : list action) (s : state)
    (out : list ValidateResult) :
  bulkValidateWithWorkerPool MapToLower customers workers tr = Some s →
  returned s = Some out →
  st_workers s ≫= sleeping = [] ∧ st_workers s ≫= sending = [] ∧
  sent customers (st_producer s) = length customers ∧
  slot <$> collected MapToLower customers workers tr initial
  ≡ₚ seq 0 (length customers).
Proof.
  intros Hrun Hret.
  pose proof (returned_collected _ _ _ Hrun Hret) as Hfull.
  pose proof (invariant_reachable _ _ _ _ _ Hrun) as Hinv.
  pose proof (got_slots _ _ _ _ _ _ Hinv) as Hslots.
  destruct Hinv as [Hp _ _ Hs Hg _].
  pose proof (sent_le _ _ _ Hp) as Hsent.
  pose proof (Permutation_length Hs) as Hls.
  pose proof (Permutation_length Hg) as Hlg.
  rewrite length_app, length_fmap, length_seq in Hls.
  rewrite length_app in Hlg.
  repeat split.
  - apply length_zero_iff_nil. lia.
  - apply length_zero_iff_nil. lia.
  - lia.
  - apply submseteq_length_Permutation; [done|].
    rewrite length_seq, length_fmap. lia.
Qed.

(** From every state some schedule leads to a state at rest. *)
Lemma reaches_rest (s : state) :
  ∃ tr s', run MapToLower customers workers tr s = Some s'
           ∧ quiescent MapToLower customers workers s'.
Proof.
  remember (cost customers workers s) as n eqn:Hn. revert s Hn.
  induction n as [n IH] using lt_wf_ind. intros s ->.
  destruct (first_enabled MapToLower customers workers s) as [a|] eqn:Hfirst.
  - destruct (first_enabled_Some _ _ _ _ _ Hfirst) as [s1 Ha].
    destruct (IH _ (step_cost _ _ _ _ _ _ Ha) s1 eq_refl)
      as (tr & s' & Hrun & Hq).
    exists (a :: tr), s'. simpl. by rewrite Ha.
  - exists [], s. split; [done|]. intros a.
    by apply first_enabled_None.
Qed.

End PoolMore.

(** X1: with at least one worker the pool is torn down when it comes to
    rest.  In a state of the call in which no goroutine can move the call
    has returned the ordered result, all the workers started have left
    their loops, and the producer has closed [jobs] and finished; and from
    every state of the call such a state can be reached. *)
Theorem pool_torn_down (MapToLower : string → string)
    (customers : list CustomerPayload) (workers : Z)
    (tr : list action) (s : state) :
  1 ≤ workers →
  bulkValidateWithWorkerPool MapToLower customers workers tr = Some s →
  (quiescent MapToLower customers workers s →
   torn_down MapToLower customers s ∧
   Z.of_nat (length (st_workers s)) = workers) ∧
  ∃ tr' s', run MapToLower customers workers tr' s = Some s'
            ∧ quiescent MapToLower customers workers s'.
Proof.
  intros Hworkers Hrun. split; [|apply reaches_rest].
  intros Hq. pose proof (invariant_reachable _ _ _ _ _ Hrun) as Hinv.
  destruct (returned s) as [out|] eqn:Hret.
  2:{ destruct (progress _ _ _ _ _ _ Hworkers Hinv Hret) as (a & s' & Ha).
      by rewrite Hq in Ha. }
  pose proof (returned_ordered _ _ _ _ _ _ _ Hinv Hret) as ->.
  destruct (returned_settled _ _ _ _ _ _ Hrun Hret) as (Hsl & Hsd & Hsent & _).
  destruct Hinv as [Hp Hw _ _ _ Hc].
  destruct s as [m ws p closed]. unfold returned in Hret. simpl in *.
  destruct m as [| |out|]; try done. destruct Hc as (Hpn & Hlen & _).
  assert (p = Some PExit) as ->.
  { destruct p as [[i|]|]; [|done|done]. simpl in Hsent. subst i.
    specialize (Hq Close). simpl in Hq.
    by rewrite (proj2 (lookup_ge_None customers (length customers))) in Hq. }
  simpl in Hp. subst closed.
  split; [|lia]. repeat split; try done. simpl.
  apply Forall_forall. intros w Hw'.
  apply list_elem_of_lookup in Hw' as [k Hk].
  specialize (Hq (Leave k)). simpl in Hq. rewrite Hk in Hq.
  destruct w as [|j|r|]; try done.
  - assert (Z.to_nat (index j) ∈ ws ≫= sleeping) as Hin.
    { apply list_elem_of_bind. exists (WSleep j). split; [by left|].
      by eapply list_elem_of_lookup_2. }
    rewrite Hsl in Hin. by apply elem_of_nil in Hin.
  - assert (r ∈ ws ≫= sending) as Hin.
    { apply list_elem_of_bind. exists (WSend r). split; [by left|].
      by eapply list_elem_of_lookup_2. }
    rewrite Hsd in Hin. by apply elem_of_nil in Hin.
Qed.

Lemma pool_torn_down_witness :
  torn_down sample_MapToLower sample_batch
            (exec sample_MapToLower sample_batch 2 30 initial).
Proof.
  apply (pool_torn_down sample_MapToLower sample_batch 2 sample_interleaving);
    [lia|vm_compute; reflexivity|].
  intros a. destruct a as [|[|[|k]]| |[|[|k]]|[|[|k]]|[|[|k]]];
    vm_compute; reflexivity.
Defined.

(** X2: the pool bounds what is under way.  At every moment of a call no
    more goroutines are started than the worker count, the jobs in flight
    are no more than the workers started, and the producer is ahead of the
    collector by exactly the jobs in flight: every job it has handed over
    is collected or held by a worker. *)
Theorem pool_bounded (MapToLower : string → string)
    (customers : list CustomerPayload) (workers : Z)
    (tr : list action) (s : state) :
  bulkValidateWithWorkerPool MapToLower customers workers tr = Some s →
  Z.of_nat (length (st_workers s)) ≤ Z.max 0 workers ∧
  (in_flight s ≤ length (st_workers s))%nat ∧
  sent customers (st_producer s)
  = (length (collected MapToLower customers workers tr initial)
     + in_flight s)%nat.
Proof.
  intros Hinv%invariant_reachable. unfold in_flight.
  pose proof (in_flight_le (st_workers s)) as Hle.
  destruct Hinv as [_ _ _ Hs Hg Hc].
  apply Permutation_length in Hs, Hg.
  rewrite length_app, length_fmap, length_seq in Hs.
  rewrite length_app in Hg.
  split; [|split; [done|lia]].
  destruct (st_main s); simpl in Hc; [lia|lia|lia|done].
Qed.

Lemma pool_bounded_witness :
  (in_flight (mkState (MCollect 0 (replicate 3 zeroValidateResult))
                      [WSleep (mkJob 0 {| FullName := ""; Email := "a@b.com" |});
                       WSleep (mkJob 1 {| FullName := "A";
                                          Email := " x@Example.com " |})]
                      (Some (PLoop 2)) false) ≤ 2)%nat.
Proof.
  apply (pool_bounded sample_MapToLower sample_batch 2
                      [Main; Main; Main; Job 0; Job 1]).
  reflexivity.
Defined.

(** X3: what the pool needs to return.  [bulkValidateWithWorkerPool] can
    return exactly when the worker count is at least 1 or the batch is
    empty, and then it returns the ordered outcomes; with a worker count of
    zero or less and a batch that is not empty no schedule makes it
    return. *)
Theorem pool_returns_iff (MapToLower : string → string)
    (customers : list CustomerPayload) (workers : Z)
    (out : list ValidateResult) :
  (∃ tr s, bulkValidateWithWorkerPool MapToLower customers workers tr = Some s
           ∧ returned s = Some out)
  ↔ out = ordered_outcomes MapToLower customers
    ∧ (1 ≤ workers ∨ customers = []).
Proof.
  split.
  - intros (tr & s & Hrun & Hret). split.
    + eapply returned_ordered; [|exact Hret]. by apply invariant_reachable.
    + destruct (Z.le_gt_cases 1 workers) as [?|Hw]; [by left|right].
      destruct customers as [|c cs]; [done|].
      rewrite (no_workers_no_return MapToLower (c :: cs) workers tr s)
        in Hret; [done|lia|done|done].
  - intros [-> [Hw | ->]].
    + apply (can_return MapToLower customers workers [] [] initial Hw).
      apply invariant_initial.
    + destruct (Z.le_gt_cases 1 workers) as [Hw|Hw].
      * apply (can_return MapToLower [] workers [] [] initial Hw).
        apply invariant_initial.
      * exists [Main; Main], (mkState (MReturn []) [] (Some (PLoop 0)) false).
        unfold bulkValidateWithWorkerPool. simpl.
        destruct (Z.ltb_spec 0 workers); [lia|done].
Qed.

Lemma pool_returns_iff_witness :
  ordered_outcomes sample_MapToLower [] = []
  ∧ (1 ≤ 0 ∨ @nil CustomerPayload = []).
Proof.
  apply (pool_returns_iff sample_MapToLower [] 0 []).
  exists [Main; Main], (mkState (MReturn []) [] (Some (PLoop 0)) false).
  split; reflexivity.
Defined.

(** X4: every record is validated exactly once.  When the call returns,
    the outcomes the workers produced and the outcomes the collector
    received are, up to their order in time, the outcomes returned: none
    is produced twice, dropped or left with a worker. *)
Theorem pool_exactly_once (MapToLower : string → string)
    (customers : list CustomerPayload) (workers : Z)
    (tr : list action) (s : state) (out : list ValidateResult) :
  bulkValidateWithWorkerPool MapToLower customers workers tr = Some s →
  returned s = Some out →
  collected MapToLower customers workers tr initial ≡ₚ out ∧
  produced MapToLower customers workers tr initial ≡ₚ out.
Proof.
  intros Hrun Hret.
  pose proof (invariant_reachable _ _ _ _ _ Hrun) as Hinv.
  pose proof (returned_ordered _ _ _ _ _ _ _ Hinv Hret) as ->.
  destruct (returned_settled _ _ _ _ _ _ Hrun Hret) as (_ & Hsd & _ & Hperm).
  destruct Hinv as [_ _ Hm _ Hg _]. rewrite Hsd, app_nil_r in Hg.
  cut (collected MapToLower customers workers tr initial
       ≡ₚ ordered_outcomes MapToLower customers).
  { intros Hcol. split; [done|]. by rewrite <-Hg. }
  set (f := λ k, default zeroValidateResult
                         (outcome_at MapToLower customers k)).
  assert (collected MapToLower customers workers tr initial
          = f <$> (slot <$> collected MapToLower customers workers tr initial))
    as ->.
  { rewrite <-list_fmap_compose. rewrite <-(list_fmap_id (collected _ _ _ _ _))
      at 1.
    apply Forall_fmap_ext. rewrite Hg. eapply Forall_impl; [exact Hm|].
    intros r Hr. unfold f. simpl. unfold genuine in Hr. by rewrite Hr. }
  rewrite Hperm.
  assert (f <$> seq 0 (length customers)
          = ordered_outcomes MapToLower customers) as ->; [|done].
  apply list_eq. intros k. rewrite list_lookup_fmap, ordered_outcomes_lookup.
  unfold f, outcome_at, job_at.
  destruct (customers !! k) as [c|] eqn:Hc.
  - rewrite lookup_seq_lt by (by eapply lookup_lt_Some). simpl.
    by rewrite ?Hc.
  - rewrite lookup_seq_ge by (by apply lookup_ge_None). done.
Qed.

Lemma pool_exactly_once_witness :
  collected sample_MapToLower sample_batch 2 sample_interleaving initial
  ≡ₚ ordered_outcomes sample_MapToLower sample_batch.
Proof.
  apply (pool_exactly_once sample_MapToLower sample_batch 2
           sample_interleaving
           (exec sample_MapToLower sample_batch 2 30 initial));
    vm_compute; reflexivity.
Defined.

(** ** The validator on trimmed input *)

(** X5: the validator does not see white space around the fields.
    Validating a record with its fields trimmed gives the verdict of the
    record itself; so the email an outcome carries, validated again under
    the same name, gives the outcome's verdict. *)
Theorem validateCustomer_trimmed (MapToLower : string → string)
    (c : CustomerPayload) (j : job) :
  validateCustomer MapToLower
    {| FullName := strings.TrimSpace (FullName c);
       Email := strings.TrimSpace (Email c) |}
  = validateCustomer MapToLower c ∧
  validateCustomer MapToLower
    {| FullName := FullName (data j);
       Email := ResultEmail (work MapToLower j) |}
  = (Valid (work MapToLower j), Message (work MapToLower j)).
Proof.
  split.
  - unfold validateCustomer. simpl. by rewrite !TrimSpace_idempotent.
  - rewrite work_verdict, work_ResultEmail.
    unfold validateCustomer. simpl. by rewrite !TrimSpace_idempotent.
Qed.

(** ** The API key middleware *)

Lemma no_space_empty :
  strings.has_leading_space "" || strings.has_trailing_space "" = false.
Proof. reflexivity. Qed.

(** X6: the middleware lets a request through exactly when the configured
    key is not empty and the header, trimmed, equals it.  A configured key
    with white space at either end therefore admits no request at all:
    every header is answered 401. *)
Theorem apiKeyAuthMiddleware_admits (apiKey header : string) :
  (apiKeyAuthMiddleware apiKey header = None
   ↔ apiKey ≠ "" ∧ strings.TrimSpace header = apiKey) ∧
  (strings.has_leading_space apiKey || strings.has_trailing_space apiKey
   = true →
   apiKeyAuthMiddleware apiKey header
   = Some (401, apiError "unauthorized" "invalid or missing X-API-Key")).
Proof.
  unfold apiKeyAuthMiddleware. split.
  - destruct (String.eqb_spec apiKey "") as [->|Hkey];
      [split; [done|by intros [? _]]|].
    destruct (String.eqb_spec (strings.TrimSpace header) "") as [He|He];
      simpl; [split; [done|]; intros [_ <-]; done|].
    destruct (String.eqb_spec (strings.TrimSpace header) apiKey);
      simpl; (split; [done|by intros [_ ?]]).
  - intros Hpad.
    destruct (String.eqb_spec apiKey "") as [->|Hkey];
      [by rewrite no_space_empty in Hpad|].
    destruct (String.eqb_spec (strings.TrimSpace header) "") as [He|He];
      simpl; [done|].
    destruct (String.eqb_spec (strings.TrimSpace header) apiKey) as [<-|];
      simpl; [|done].
    by rewrite TrimSpace_no_leading_space, TrimSpace_no_trailing_space
      in Hpad.
Qed.

Lemma apiKeyAuthMiddleware_admits_witness :
  apiKeyAuthMiddleware "secret " "secret "
  = Some (401, apiError "unauthorized" "invalid or missing X-API-Key")
  ∧ apiKeyAuthMiddleware "secret" "  secret " = None.
Proof.
  split.
  - apply (apiKeyAuthMiddleware_admits "secret " "secret "). reflexivity.
  - apply (apiKeyAuthMiddleware_admits "secret" "  secret ").
    split; [discriminate|reflexivity].
Defined.

(** ** Query parameters *)

(** X7: [parseIntDefault] returns the default or a positive number that
    [Atoi] read without error from the trimmed string; with a positive
    default its result is positive; and white space around the string
    makes no difference. *)
Theorem parseIntDefault_positive (Atoi : string → Z * bool)
    (s : string) (def : Z) :
  (parseIntDefault Atoi s def = def ∨
   (0 < parseIntDefault Atoi s def ∧
    Atoi (strings.TrimSpace s) = (parseIntDefault Atoi s def, false))) ∧
  (0 < def → 0 < parseIntDefault Atoi s def) ∧
  parseIntDefault Atoi (strings.TrimSpace s) def = parseIntDefault Atoi s def.
Proof.
  unfold parseIntDefault. rewrite TrimSpace_idempotent.
  destruct (Atoi (strings.TrimSpace s)) as [n [|]]; simpl; [auto|].
  destruct (Z.leb_spec n 0); [auto|].
  split; [right; done|]. split; [done|done].
Qed.

Lemma parseIntDefault_positive_witness :
  0 < parseIntDefault sample_Atoi "-4" 10
  ∧ parseIntDefault sample_Atoi " 42 " 10 = 42.
Proof.
  split.
  - apply (parseIntDefault_positive sample_Atoi "-4" 10). lia.
  - destruct (parseIntDefault_positive sample_Atoi " 42 " 10)
      as (_ & _ & <-). reflexivity.
Defined.

(** X8: [parseBoolDefault] departs from the default only for one of the
    twelve spellings [ParseBool] accepts, given exactly: the string is
    trimmed for the emptiness test alone, so a spelling with white space
    around it gives the default. *)
Theorem parseBoolDefault_spellings (s : string) (def : bool) :
  (parseBoolDefault s def ≠ def →
   s ∈ ["1"; "t"; "T"; "TRUE"; "true"; "True";
        "0"; "f"; "F"; "FALSE"; "false"; "False"]) ∧
  (strings.has_leading_space s || strings.has_trailing_space s = true →
   parseBoolDefault s def = def).
Proof.
  assert (parseBoolDefault s def ≠ def →
          s ∈ ["1"; "t"; "T"; "TRUE"; "true"; "True";
               "0"; "f"; "F"; "FALSE"; "false"; "False"]) as Hin.
  { unfold parseBoolDefault, strconv.ParseBool.
    destruct (String.eqb _ ""); [done|].
    repeat case_bool_decide; simpl; try done; intros _.
    - change (s ∈ ["1"; "t"; "T"; "TRUE"; "true"; "True"]
                  ++ ["0"; "f"; "F"; "FALSE"; "false"; "False"]).
      apply elem_of_app. by left.
    - change (s ∈ ["1"; "t"; "T"; "TRUE"; "true"; "True"]
                  ++ ["0"; "f"; "F"; "FALSE"; "false"; "False"]).
      apply elem_of_app. by right. }
  split; [done|]. intros Hpad.
  destruct (decide (parseBoolDefault s def = def)) as [|Hne]; [done|].
  apply Hin in Hne.
  repeat (apply elem_of_cons in Hne as [->|Hne]; [by vm_compute in Hpad|]).
  by apply elem_of_nil in Hne.
Qed.

Lemma parseBoolDefault_spellings_witness :
  parseBoolDefault " false" true = true.
Proof. apply (parseBoolDefault_spellings " false" true). reflexivity. Defined.

Lemma wrap64_small (z : Z) : - 2 ^ 63 ≤ z < 2 ^ 63 → wrap64 z = z.
Proof. intros H. unfold wrap64. rewrite Z.mod_small; lia. Qed.

Lemma wrap64_succ (z : Z) : wrap64 (wrap64 z + 1) = wrap64 (z + 1).
Proof.
  unfold wrap64.
  replace ((z + 2 ^ 63) mod 2 ^ 64 - 2 ^ 63 + 1 + 2 ^ 63)
    with ((z + 2 ^ 63) mod 2 ^ 64 + 1) by lia.
  rewrite Z.add_mod_idemp_l by lia. f_equal. f_equal. lia.
Qed.

(** X9: the page and the limit [GET /customers] queries with are at least
    1 whatever the query parameters say; the offset is [(page-1)*limit],
    not negative, as long as that product fits Go's [int], and 0 on the
    first page.  Nothing bounds the limit from above. *)
Theorem getCustomers_offset (Atoi : string → Z * bool)
    (qpage qlimit qsearch qactive search : string)
    (activeOnly : bool) (limit offset : Z) :
  (∀ s, - 2 ^ 63 ≤ (Atoi s).1 < 2 ^ 63) →
  getCustomers_args Atoi qpage qlimit qsearch qactive
  = (activeOnly, search, limit, offset) →
  1 ≤ parseIntDefault Atoi qpage 1 < 2 ^ 63 ∧
  limit = parseIntDefault Atoi qlimit 10 ∧ 1 ≤ limit < 2 ^ 63 ∧
  ((parseIntDefault Atoi qpage 1 - 1) * limit < 2 ^ 63 →
   offset = (parseIntDefault Atoi qpage 1 - 1) * limit ∧ 0 ≤ offset) ∧
  (parseIntDefault Atoi qpage 1 = 1 → offset = 0).
Proof.
  intros Hint. unfold getCustomers_args, listCustomers_args.
  intros [= _ _ <- <-].
  assert (∀ q def, 1 ≤ def < 2 ^ 63 →
                   1 ≤ parseIntDefault Atoi q def < 2 ^ 63) as Hrange.
  { intros q def Hdef. unfold parseIntDefault.
    specialize (Hint (strings.TrimSpace q)).
    destruct (Atoi (strings.TrimSpace q)) as [n [|]]; simpl in *; [done|].
    destruct (Z.leb_spec n 0); lia. }
  pose proof (Hrange qpage 1 ltac:(lia)) as Hpage.
  pose proof (Hrange qlimit 10 ltac:(lia)) as Hlimit.
  split; [done|]. split; [done|]. split; [done|]. split.
  - intros Hfit. rewrite (wrap64_small (_ - 1)) by lia.
    rewrite wrap64_small by nia. nia.
  - intros ->. reflexivity.
Qed.

Lemma getCustomers_offset_witness :
  20 = (parseIntDefault sample_Atoi "3" 1 - 1) * 10 ∧ 0 ≤ 20.
Proof.
  destruct (getCustomers_offset sample_Atoi "3" "-4" " an " ""
              "%an%" true 10 20) as (_ & _ & _ & H & _).
  - intros s. unfold sample_Atoi.
    destruct s as [|[[] [] [] [] [] [] [] []] ds]; simpl;
      repeat case_match; simpl; lia.
  - reflexivity.
  - apply H. vm_compute. reflexivity.
Defined.

(** ** Creating a customer *)

Lemma lowerASCII_at (c : ascii) :
  Ascii.eqb "@" (strings.lowerASCII c) = Ascii.eqb "@" c.
Proof. by destruct c as [[] [] [] [] [] [] [] []]. Qed.

Lemma Contains_at (c : ascii) (s : string) :
  strings.Contains (String c s) "@"
  = Ascii.eqb "@" c || strings.Contains s "@".
Proof.
  change (strings.Contains (String c s) "@")
    with (String.prefix "@" (String c s) || strings.Contains s "@").
  f_equal.
  change (String.prefix "@" (String c s))
    with (if ascii_dec "@" c then String.prefix "" s else false).
  destruct (ascii_dec "@" c) as [<-|Hne]; [by destruct s|].
  symmetry. by apply Ascii.eqb_neq.
Qed.

Lemma Contains_at_lower (s : string) :
  strings.Contains
    (string_of_list_ascii (strings.lowerASCII <$> list_ascii_of_string s)) "@"
  = strings.Contains s "@".
Proof.
  induction s as [|c s IH]; [done|].
  change (strings.Contains
            (String (strings.lowerASCII c)
               (string_of_list_ascii
                  (strings.lowerASCII <$> list_ascii_of_string s))) "@"
          = strings.Contains (String c s) "@").
  by rewrite !Contains_at, IH, lowerASCII_at.
Qed.

Lemma Contains_at_ToLower (MapToLower : string → string) (s : string) :
  (∀ t, strings.Contains (MapToLower t) "@" = strings.Contains t "@") →
  strings.Contains (strings.ToLower MapToLower s) "@"
  = strings.Contains s "@".
Proof.
  intros H. unfold strings.ToLower.
  destruct (strings.isASCII s); [apply Contains_at_lower|apply H].
Qed.

(** X10: [POST /customers] checks less than the bulk validator.  Given
    that lower-casing beyond ASCII neither adds nor removes an '@', a
    request goes on to [createCustomer] exactly when its trimmed name is
    not empty and its trimmed email contains '@': every record the bulk
    validator accepts is let through, and so are the records it rejects
    as too long or as example.com addresses. *)
Theorem postCustomers_check_passes (MapToLower : string → string)
    (req : CreateCustomerRequest) :
  (∀ t, strings.Contains (MapToLower t) "@" = strings.Contains t "@") →
  let c := {| FullName := ReqFullName req; Email := ReqEmail req |} in
  ((∃ req', postCustomers_check MapToLower req = inr req')
   ↔ strings.TrimSpace (ReqFullName req) ≠ ""
     ∧ strings.Contains (strings.TrimSpace (ReqEmail req)) "@" = true) ∧
  (postCustomers_check MapToLower req
   = inr {| ReqFullName := strings.TrimSpace (ReqFullName req);
            ReqEmail := strings.ToLower MapToLower
                          (strings.TrimSpace (ReqEmail req));
            ReqPhone := strings.TrimSpace (ReqPhone req) |}
   ↔ validateCustomer MapToLower c = (true, "")
     ∨ validateCustomer MapToLower c = (false, "email too long")
     ∨ validateCustomer MapToLower c
       = (false, "example.com emails are not allowed")).
Proof.
  intros Hat c. unfold postCustomers_check, validateCustomer. simpl.
  rewrite (Contains_at_ToLower _ _ Hat).
  destruct (String.eqb_spec (strings.TrimSpace (ReqFullName req)) "")
    as [Hn|Hn]; simpl.
  { split; [split; [by intros [? ?]|by intros [? _]]|].
    split; [done|]. intros [?|[?|?]]; done. }
  destruct (strings.Contains (strings.TrimSpace (ReqEmail req)) "@")
    eqn:Hc; simpl.
  - assert (strings.TrimSpace (ReqEmail req) ≠ "") as He.
    { intros He. by rewrite He in Hc. }
    assert (strings.ToLower MapToLower (strings.TrimSpace (ReqEmail req))
            ≠ "") as Hl.
    { intros Hl. pose proof (Contains_at_ToLower _
        (strings.TrimSpace (ReqEmail req)) Hat) as Hcl.
      by rewrite Hl, Hc in Hcl. }
    apply String.eqb_neq in He, Hl. rewrite He, Hl. simpl.
    split; [split; [done|eauto]|]. split; [|done]. intros _.
    repeat match goal with
           | |- context [if ?b then _ else _] => destruct b; auto
           end.
  - rewrite orb_true_r.
    split; [split; [by intros [? ?]|by intros [_ ?]]|].
    split; [done|].
    destruct (String.eqb _ ""); intros [?|[?|?]]; done.
Qed.

Lemma postCustomers_check_passes_witness :
  postCustomers_check sample_MapToLower
    {| ReqFullName := " Ann "; ReqEmail := " Ann@Example.com"; ReqPhone := "" |}
  = inr {| ReqFullName := "Ann"; ReqEmail := "ann@example.com";
           ReqPhone := "" |}.
Proof.
  apply (postCustomers_check_passes sample_MapToLower
           {| ReqFullName := " Ann "; ReqEmail := " Ann@Example.com";
              ReqPhone := "" |}).
  - reflexivity.
  - right. right. reflexivity.
Defined.

(** ** The users service *)

(** The identifiers count the positions, in Go's [int]. *)
Lemma usersHandler_ids (method : string) (decoded : option User)
    (us : list User) :
  (∀ i u, us !! i = Some u → ID u = wrap64 (Z.of_nat i + 1)) →
  ∀ i u, (usersHandler method decoded us).2 !! i = Some u →
         ID u = wrap64 (Z.of_nat i + 1).
Proof.
  intros Hids. unfold usersHandler.
  destruct (String.eqb method "GET"); [done|].
  destruct (String.eqb method "POST"); [|done].
  destruct decoded as [payload|]; [|done].
  destruct (String.eqb (Name payload) ""); [done|]. simpl.
  intros i u Hi. apply lookup_app_Some in Hi as [Hi|[Hlen Hi]]; [eauto|].
  destruct (i - length us)%nat as [|?] eqn:Hd; [|done].
  injection Hi as <-. simpl. assert (i = length us) as -> by lia.
  destruct us as [|u0 us _] using rev_ind; [done|].
  rewrite last_snoc, length_app. simpl.
  rewrite (Hids (length us) u0) by (by rewrite lookup_app_r, Nat.sub_diag).
  rewrite wrap64_succ. f_equal. lia.
Qed.

Lemma usersHandler_prefix (method : string) (decoded : option User)
    (us : list User) :
  us `prefix_of` (usersHandler method decoded us).2 ∧
  (length (usersHandler method decoded us).2 ≤ length us + 1)%nat.
Proof.
  unfold usersHandler.
  repeat match goal with
         | |- context [if ?b then _ else _] => destruct b
         | |- context [match ?o with Some _ => _ | None => _ end] =>
             destruct o
         end; simpl; rewrite ?length_app; simpl;
    (split; [by apply prefix_app_r || done|lia]).
Qed.

Lemma serve_ids (reqs : list (string * option User)) (us : list User) :
  (∀ i u, us !! i = Some u → ID u = wrap64 (Z.of_nat i + 1)) →
  (∀ i u, serve reqs us !! i = Some u → ID u = wrap64 (Z.of_nat i + 1)) ∧
  us `prefix_of` serve reqs us ∧
  (length (serve reqs us) ≤ length us + length reqs)%nat.
Proof.
  revert us. induction reqs as [|[method decoded] reqs IH]; intros us Hids.
  - simpl. split; [done|]. split; [done|lia].
  - simpl.
    destruct (IH _ (usersHandler_ids method decoded us Hids))
      as (Hids' & Hpre & Hlen).
    destruct (usersHandler_prefix method decoded us) as [Hpre1 Hlen1].
    split; [done|]. split; [by etrans|lia].
Qed.

(** X11: the users service numbers its users by position.  After any
    sequence of requests, handled one after the other from the two seeded
    users, the user at position [i] has the identifier [i+1] (as long as
    that fits Go's [int]) whatever identifier the request bodies carried,
    so no two users share one; and the seeded users are still the first
    two. *)
Theorem users_numbered (reqs : list (string * option User))
    (i : nat) (u : User) :
  Z.of_nat (length reqs) + 2 < 2 ^ 63 →
  serve reqs users !! i = Some u →
  ID u = Z.of_nat i + 1 ∧
  NoDup (ID <$> serve reqs users) ∧
  users `prefix_of` serve reqs users.
Proof.
  intros Hfit Hi.
  assert (∀ i u, users !! i = Some u → ID u = wrap64 (Z.of_nat i + 1))
    as Hids0.
  { intros [|[|k]] v; simpl; [by intros [= <-]..|done]. }
  destruct (serve_ids reqs users Hids0) as (Hids & Hpre & Hlen).
  simpl in Hlen.
  assert (∀ k v, serve reqs users !! k = Some v → ID v = Z.of_nat k + 1)
    as Hexact.
  { intros k v Hk. rewrite (Hids k v Hk). apply wrap64_small.
    apply lookup_lt_Some in Hk. lia. }
  split; [by apply Hexact|]. split; [|done].
  assert (ID <$> serve reqs users
          = (λ k, Z.of_nat k + 1) <$> seq 0 (length (serve reqs users)))
    as ->.
  { apply list_eq. intros k. rewrite !list_lookup_fmap.
    destruct (serve reqs users !! k) as [v|] eqn:Hk; simpl.
    - rewrite lookup_seq_lt by (by eapply lookup_lt_Some). simpl.
      by rewrite (Hexact k v Hk).
    - rewrite lookup_seq_ge by (by apply lookup_ge_None). done. }
  apply NoDup_fmap_2; [|apply NoDup_seq]. intros x y Hxy. lia.
Qed.

Lemma users_numbered_witness :
  3 = Z.of_nat 2 + 1
  ∧ NoDup (ID <$> serve [("POST", Some (mkUser 77 "Cici")); ("GET", None);
                         ("POST", Some (mkUser 1 ""))] users).
Proof.
  destruct (users_numbered
              [("POST", Some (mkUser 77 "Cici")); ("GET", None);
               ("POST", Some (mkUser 1 ""))] 2 (mkUser 3 "Cici"))
    as (Hid & Hnd & _); [simpl; lia|reflexivity|].
  split; [exact Hid|exact Hnd].
Defined.

(** X12: a call of [usersHandler] changes the users only by appending one
    user, and only when it answers 201, that is for a POST whose body
    decodes to a name that is not empty; the new user carries that name.
    A GET, a POST that fails and any other method leave the users as they
    were, and a GET that follows lists the users as the call left them. *)
Theorem usersHandler_appends (method : string) (decoded : option User)
    (us us' : list User) (status : Z) (body : reply) :
  usersHandler method decoded us = (status, body, us') →
  ((status = 201 ∧ body = ReplyText "Berhasil" ∧
    (∃ payload id, method = "POST" ∧ decoded = Some payload ∧
                   Name payload ≠ "" ∧
                   us' = us ++ [{| ID := id; Name := Name payload |}]))
   ∨ (status ≠ 201 ∧ us' = us)) ∧
  usersHandler "GET" None us' = (200, ReplyUsers us', us').
Proof.
  intros H. split; [|done]. revert H. unfold usersHandler. intros H.
  destruct (String.eqb method "GET"); [right; by simplify_eq|].
  destruct (String.eqb_spec method "POST") as [->|_];
    [|right; by simplify_eq].
  destruct decoded as [payload|]; [|right; by simplify_eq].
  destruct (String.eqb_spec (Name payload) "");
    [right; by simplify_eq|].
  left. simplify_eq. split; [done|]. split; [done|]. eauto 10.
Qed.

Lemma usersHandler_appends_witness :
  usersHandler "GET" None (users ++ [mkUser 3 "Cici"])
  = (200, ReplyUsers (users ++ [mkUser 3 "Cici"]),
     users ++ [mkUser 3 "Cici"]).
Proof.
  apply (usersHandler_appends "POST" (Some (mkUser 77 "Cici")) users
           (users ++ [mkUser 3 "Cici"]) 201 (ReplyText "Berhasil")).
  reflexivity.
Defined.

(** ** Letter case in the validator *)

Lemma lower_length (s : string) :
  String.length
    (string_of_list_ascii (strings.lowerASCII <$> list_ascii_of_string s))
  = String.length s.
Proof.
  induction s as [|c s IH]; [done|].
  change (S (String.length
               (string_of_list_ascii
                  (strings.lowerASCII <$> list_ascii_of_string s)))
          = S (String.length s)).
  by rewrite IH.
Qed.

Lemma eqb_empty_length (s : string) :
  String.eqb s "" = bool_decide (String.length s = 0%nat).
Proof. by destruct s. Qed.

(** X13: the validator does not tell ASCII letter case apart in the email.
    Two records with the same trimmed name whose trimmed emails are ASCII
    and equal up to letter case get the same verdict and message: writing
    an address in capitals does not get it past the example.com rule. *)
Theorem validateCustomer_ascii_case (MapToLower : string → string)
    (c1 c2 : CustomerPayload) :
  strings.TrimSpace (FullName c1) = strings.TrimSpace (FullName c2) →
  strings.isASCII (strings.TrimSpace (Email c1)) = true →
  strings.isASCII (strings.TrimSpace (Email c2)) = true →
  strings.ToLower MapToLower (strings.TrimSpace (Email c1))
  = strings.ToLower MapToLower (strings.TrimSpace (Email c2)) →
  validateCustomer MapToLower c1 = validateCustomer MapToLower c2.
Proof.
  intros Hname H1 H2 Hlower. unfold validateCustomer.
  rewrite Hname, <-Hlower. clear Hname.
  unfold strings.ToLower in Hlower. rewrite H1, H2 in Hlower.
  assert (String.length (strings.TrimSpace (Email c1))
          = String.length (strings.TrimSpace (Email c2))) as Hlen.
  { by rewrite <-(lower_length (strings.TrimSpace (Email c1))), Hlower,
      lower_length. }
  assert (strings.Contains (strings.TrimSpace (Email c1)) "@"
          = strings.Contains (strings.TrimSpace (Email c2)) "@") as Hat.
  { by rewrite <-(Contains_at_lower (strings.TrimSpace (Email c1))), Hlower,
      Contains_at_lower. }
  by rewrite !eqb_empty_length, Hlen, Hat.
Qed.

Lemma validateCustomer_ascii_case_witness :
  validateCustomer sample_MapToLower
                   {| FullName := "A"; Email := "X@EXAMPLE.COM " |}
  = validateCustomer sample_MapToLower
                     {| FullName := " A"; Email := "x@example.com" |}.
Proof. apply validateCustomer_ascii_case; reflexivity. Defined.
